(** * Auto Invert Bright Images: the content script, embedded and verified

    Shallow embedding of [src/extension/content.js]:
    the classifier [shouldInvert], the transform [invertImage], the style
    fallback [applyCssFallback], the per-image pipeline [processImage] and
    the scanner [scanImages]. *)

From Stdlib Require Import ZArith QArith Lia ZifyNat String Ascii Bool.
From Stdlib Require Import Floats.SpecFloat.
From stdpp Require Import base list strings gmap.

Local Open Scope Z_scope.

(** ** JavaScript numbers

    A JS Number is an IEEE-754 binary64 value.  The two divisions of the
    classifier are modelled bit for bit with the standard library's
    executable specification of binary64 ([prec = 53], [emax = 1024]).
    Every Number that flows into a division (the channel values, their
    sum, the two counters) is a binary64 value; array indices are
    natural numbers. *)
Module Num.

Definition prec : Z := 53.
Definition emax : Z := 1024.

Definition t : Type := spec_float.

Definition NaN : t := S754_nan.

(** The Number denoting an integer (round to nearest even). *)
Definition of_int (z : Z) : t := binary_normalize prec emax z 0 false.

(** ToNumber applied to the result of an element read: [undefined]
    converts to NaN. *)
Definition of_read (v : option Z) : t :=
  match v with
  | Some z => of_int z
  | None => NaN
  end.

Definition add (x y : t) : t := SFadd prec emax x y.
Definition div (x y : t) : t := SFdiv prec emax x y.

(** [x > y]: false as soon as one side is NaN. *)
Definition gt (x y : t) : bool := SFltb y x.

(** The literal [0.6]: the binary64 value nearest to 6/10,
    5404319552844595 * 2^-53. *)
Definition lit_0_6 : t := S754_finite false 5404319552844595 (-53).

(** The literal [200]. *)
Definition lit_200 : t := of_int 200.

(** The literal [3]. *)
Definition lit_3 : t := of_int 3.

(** The literals [0] and [1] of the counters. *)
Definition lit_0 : t := of_int 0.
Definition lit_1 : t := of_int 1.

End Num.

(** ** Uint8ClampedArray

    The pixel buffer [imageData.data]: a fixed-length array of bytes.
    A read past the end yields [undefined] ([None]); a write past the end
    is ignored; a written Number is clamped to 0..255, NaN becoming 0. *)
Module U8.

Definition get (d : list Z) (i : nat) : option Z := d !! i.

(** ToUint8Clamp on an integer or NaN ([None]). *)
Definition clamp (v : option Z) : Z :=
  match v with
  | None => 0
  | Some z => Z.max 0 (Z.min 255 z)
  end.

Definition set (d : list Z) (i : nat) (v : option Z) : list Z := <[i := clamp v]> d.

(** Every element is a byte. *)
Definition valid (d : list Z) : Prop := Forall (fun v => 0 <= v <= 255) d.

(** The largest length a typed array can have (2^53 - 1). *)
Definition max_length : Z := 9007199254740991.

End U8.

(** ** Detection heuristics: [shouldInvert] *)

(** The loop of [shouldInvert], from index [i] with the counters
    [brightPixels] and [samples]; it returns the two counters at loop
    exit.  [fuel] bounds the number of iterations. *)
Fixpoint shouldInvert_loop (fuel : nat) (data : list Z) (i : nat)
    (brightPixels samples : Num.t) : Num.t * Num.t :=
  match fuel with
  | O => (brightPixels, samples)
  | S fuel' =>
    if (i <? length data)%nat then
      let samples := Num.add samples Num.lit_1 in
      let r := Num.of_read (U8.get data i) in
      let g := Num.of_read (U8.get data (i + 1)) in
      let b := Num.of_read (U8.get data (i + 2)) in
      let brightness := Num.div (Num.add (Num.add r g) b) Num.lit_3 in
      let brightPixels :=
        if Num.gt brightness Num.lit_200
        then Num.add brightPixels Num.lit_1 else brightPixels in
      shouldInvert_loop fuel' data (i + 20) brightPixels samples
    else (brightPixels, samples)
  end.

(** The counters [(brightPixels, samples)] when the loop has finished. *)
Definition shouldInvert_counts (data : list Z) : Num.t * Num.t :=
  shouldInvert_loop (S (length data)) data 0 Num.lit_0 Num.lit_0.

Definition shouldInvert (data : list Z) : bool :=
  let '(brightPixels, samples) := shouldInvert_counts data in
  Num.gt (Num.div brightPixels samples) Num.lit_0_6.

(** ** Pixel inversion: [invertImage] *)

(** [255 - v] on the result of an element read: exact on a byte, NaN
    ([None]) on [undefined]. *)
Definition sub_from_255 (v : option Z) : option Z :=
  match v with
  | Some z => Some (255 - z)
  | None => None
  end.

(** What one assignment [d[i] = 255 - d[i]] stores. *)
Definition inv_byte (v : Z) : Z := U8.clamp (Some (255 - v)).

(** The bytes the loop of [invertImage] changes once it is at index [i]:
    the colour channels at or after [i]. *)
Definition inverted_from (i j : nat) : bool :=
  (i <=? j)%nat && negb (j mod 4 =? 3)%nat.

Fixpoint invertImage_loop (fuel : nat) (i : nat) (d : list Z) : list Z :=
  match fuel with
  | O => d
  | S fuel' =>
    if (i <? length d)%nat then
      let d := U8.set d i (sub_from_255 (U8.get d i)) in
      let d := U8.set d (i + 1) (sub_from_255 (U8.get d (i + 1))) in
      let d := U8.set d (i + 2) (sub_from_255 (U8.get d (i + 2))) in
      invertImage_loop fuel' (i + 4) d
    else d
  end.

(** The buffer after the loop of [invertImage]. *)
Definition invertPixels (d : list Z) : list Z := invertImage_loop (S (length d)) 0 d.

(** ** Strings

    [img.src] is a serialised URL, hence ASCII; a string is a sequence of
    8-bit code units. *)
Module Str.

Definition lower_ascii (c : ascii) : ascii :=
  let n := nat_of_ascii c in
  if ((65 <=? n) && (n <=? 90))%nat then ascii_of_nat (n + 32) else c.

Fixpoint toLowerCase (s : string) : string :=
  match s with
  | EmptyString => EmptyString
  | String c s' => String (lower_ascii c) (toLowerCase s')
  end.

(** [s.endsWith(suffix)]: the last [length suffix] code units of [s]
    are [suffix]. *)
Definition endsWith (s suffix : string) : bool :=
  let n := String.length s in
  let m := String.length suffix in
  if (m <=? n)%nat then String.eqb (substring (n - m) m s) suffix else false.

End Str.

(** ** The page and the browser *)

(** What [img.onload] can hold. *)
Inductive handler : Type :=
  | OnloadProcessImage.

(** An [<img>] element: [dataset] is its DOMStringMap, [style] maps a CSS
    property of its inline style to its value and priority. *)
Record image : Type := {
  dataset : gmap string string;
  naturalWidth : Z;
  naturalHeight : Z;
  src : string;
  complete : bool;
  onload : option handler;
  style : gmap string (string * string)
}.

Definition set_dataset (img : image) (k v : string) : image :=
  {| dataset := <[k := v]> (dataset img);
     naturalWidth := naturalWidth img; naturalHeight := naturalHeight img;
     src := src img; complete := complete img; onload := onload img;
     style := style img |}.

Definition set_src (img : image) (v : string) : image :=
  {| dataset := dataset img;
     naturalWidth := naturalWidth img; naturalHeight := naturalHeight img;
     src := v; complete := complete img; onload := onload img;
     style := style img |}.

Definition set_onload (img : image) (h : handler) : image :=
  {| dataset := dataset img;
     naturalWidth := naturalWidth img; naturalHeight := naturalHeight img;
     src := src img; complete := complete img; onload := Some h;
     style := style img |}.

(** [img.style.setProperty(name, value, priority)] *)
Definition style_setProperty (img : image) (name value priority : string) : image :=
  {| dataset := dataset img;
     naturalWidth := naturalWidth img; naturalHeight := naturalHeight img;
     src := src img; complete := complete img; onload := onload img;
     style := <[name := (value, priority)]> (style img) |}.

(** An offscreen canvas: its size and its bitmap (RGBA bytes). *)
Record canvas : Type := {
  cv_width : Z;
  cv_height : Z;
  cv_bitmap : list Z
}.

(** How the browser answers for one image: whether a 2D context is
    handed out, whether [drawImage] and [getImageData] throw, the RGBA
    pixels [drawImage] renders, and the data URL [toDataURL] encodes for
    a canvas. *)
Record browser : Type := {
  has_2d_context : bool;
  draw_blocked : bool;
  read_blocked : bool;
  rendered : list Z;
  toDataURL : canvas -> string
}.

(** The helper functions of the script. *)
Inductive fn : Type :=
  | FShouldInvert
  | FInvertImage
  | FApplyCssFallback.

(** What the script does to the outside, in order: console output (with
    [DEBUG = true]), canvas calls, and the entry into a helper. *)
Inductive event : Type :=
  | Log (msg arg : string)
  | CreateCanvas
  | GetContext
  | DrawImage
  | GetImageData
  | PutImageData
  | ToDataURL
  | Call (f : fn).

(** ** Configuration *)

Definition DEBUG : bool := true.

(** [log(msg, arg)]: console output when [DEBUG] is on. *)
Definition log (msg arg : string) : list event :=
  if DEBUG then [Log msg arg] else [].

Definition fallback_filter : string :=
  "invert(1) hue-rotate(180deg) brightness(1.1) contrast(1.1)".

(** ** CSS fallback: [applyCssFallback] *)
Definition applyCssFallback (img : image) : image * list event :=
  let img := style_setProperty img "filter" fallback_filter "important" in
  let img := style_setProperty img "background-color" "black" EmptyString in
  (img, log "CSS fallback applied:" (src img)).

(** [invertImage(ctx, imageData)]: the buffer is inverted in place and
    put on the canvas at (0, 0); the buffer has the size of the canvas,
    so it replaces the whole bitmap. *)
Definition invertImage (cv : canvas) (d : list Z) : canvas * list Z * list event :=
  let d := invertPixels d in
  ({| cv_width := cv_width cv; cv_height := cv_height cv; cv_bitmap := d |},
   d, [PutImageData]).

(** ** Image processing entry point: [processImage]

    The result is the element after the call and what the call did, in
    order.  The canvas is local to the call; it is given its size before
    [drawImage], which fills its bitmap. *)
Definition processImage (br : browser) (img : image) : image * list event :=
  let img := set_dataset img "processed" "true" in
  let width := naturalWidth img in
  let height := naturalHeight img in
  if (width <? 120) || (height <? 120) then
    (img, log "Skipping small image:" (src img))
  else if Str.endsWith (Str.toLowerCase (src img)) ".gif" then
    (img, log "Skipping GIF:" (src img))
  else
    let tr := [CreateCanvas; GetContext] in
    if negb (has_2d_context br) then (img, tr)
    else
      let tr := tr ++ [DrawImage] in
      if draw_blocked br then
        let tr := tr ++ log "Canvas draw blocked (CORS), using CSS fallback:" (src img)
                     ++ [Call FApplyCssFallback] in
        let '(img, tr') := applyCssFallback img in
        (img, tr ++ tr')
      else
        let cv := {| cv_width := width; cv_height := height;
                     cv_bitmap := rendered br |} in
        let tr := tr ++ [GetImageData] in
        if read_blocked br then
          let tr := tr ++ log "Canvas read blocked (tainted), using CSS fallback:" (src img)
                       ++ [Call FApplyCssFallback] in
          let '(img, tr') := applyCssFallback img in
          (img, tr ++ tr')
        else
          let data := cv_bitmap cv in
          let tr := tr ++ [Call FShouldInvert] in
          if negb (shouldInvert data) then
            (img, tr ++ log "Image does not meet inversion criteria:" (src img))
          else
            let '(cv, data, tr') := invertImage cv data in
            let tr := tr ++ [Call FInvertImage] ++ tr' ++ [ToDataURL] in
            let img := set_src img (toDataURL br cv) in
            (img, tr ++ log "Image inverted via canvas:" (src img)).

(** ** Image scanning: [scanImages] *)

(** The body of the [forEach] callback. *)
Definition scanImage (env : image -> browser) (img : image) : image * list event :=
  if decide (dataset img !! "processed" = Some "true") then (img, [])
  else if complete img then processImage (env img) img
  else (set_onload img OnloadProcessImage, []).

(** [scanImages] over the [<img>] elements of the document, in document
    order. *)
Fixpoint scanImages (env : image -> browser) (images : list image)
    : list image * list event :=
  match images with
  | [] => ([], [])
  | img :: rest =>
    let '(img', tr) := scanImage env img in
    let '(rest', tr') := scanImages env rest in
    (img' :: rest', tr ++ tr')
  end.

(** ** The classifier's rule in the words of the specification

    Exact rational arithmetic, to compare with the binary64 arithmetic
    of [shouldInvert]. *)
Module Rule.

(** [n] byte offsets from [i], 20 bytes (5 pixels) apart. *)
Fixpoint offsets_from (i n : nat) : list nat :=
  match n with
  | O => []
  | S n' => i :: offsets_from (i + 20) n'
  end.

(** The byte offsets the sampling visits: 0, 20, 40, ... below [len]. *)
Definition sample_offsets (len : nat) : list nat :=
  offsets_from 0 ((len + 19) / 20).

(** The mean of the three colour channels. *)
Definition mean (r g b : Z) : Q := inject_Z (r + g + b) / inject_Z 3.

(** A pixel is bright when its mean is strictly greater than 200. *)
Definition bright (r g b : Z) : bool := negb (Qle_bool (mean r g b) (inject_Z 200)).

(** The pixel at byte offset [i] of [data] is bright; a pixel cut short
    by the end of the buffer has no mean and is not bright. *)
Definition bright_at (data : list Z) (i : nat) : bool :=
  match data !! i, data !! (i + 1)%nat, data !! (i + 2)%nat with
  | Some r, Some g, Some b => bright r g b
  | _, _, _ => false
  end.

Definition total_count (data : list Z) : Z :=
  Z.of_nat (length (sample_offsets (length data))).

Definition bright_count (data : list Z) : Z :=
  Z.of_nat (length (List.filter (bright_at data) (sample_offsets (length data)))).

(** The ratio of bright samples to samples is strictly greater than
    0.6; there is no ratio without a sample. *)
Definition ratio_gt_0_6 (brights total : Z) : Prop :=
  0 < total /\ (6 # 10 < inject_Z brights / inject_Z total)%Q.

End Rule.

(** ** Checking the brightness test by enumeration *)
Module Enum.

(** [s / 3 > 200] in binary64 is [s > 600], for [s] in 0..[n). *)
Definition brightness_exact (n : Z) : bool :=
  forallb (fun s =>
    Bool.eqb (Num.gt (Num.div (Num.of_int s) Num.lit_3) Num.lit_200) (600 <? s))
    (seqZ 0 n).

End Enum.

(** [2^52] and [2^53]: the bounds of a binary64 mantissa. *)
Definition P52 : Z := 2 ^ 52.
Definition P53 : Z := 2 ^ 53.

(** [r] is the remainder of a division by [N] and [l] tells where the
    exact quotient lies between the integer quotient and its successor. *)
Definition loc_ok (N r : Z) (l : location) : Prop :=
  match l with
  | loc_Exact => r = 0
  | loc_Inexact c => 0 < r /\ (2 * r ?= N) = c
  end.

(** ** Vocabulary of the pipeline properties *)

(** The element once its Processed Marker is set. *)
Definition marked (img : image) : image := set_dataset img "processed" "true".

(** An image passes the eligibility filter: neither small nor, by its
    extension, an animated GIF. *)
Definition eligible (img : image) : Prop :=
  120 <= naturalWidth img /\ 120 <= naturalHeight img /\
  Str.endsWith (Str.toLowerCase (src img)) ".gif" = false.

(** The source locator ends in [.gif], whatever the case of the letters. *)
Definition gif_extension (s : string) : Prop :=
  exists p e, s = String.append p e /\ Str.toLowerCase e = ".gif".

(** The canvas of [processImage] once [invertImage] has put the inverted
    buffer back on it. *)
Definition inverted_canvas (br : browser) (img : image) : canvas :=
  {| cv_width := naturalWidth img; cv_height := naturalHeight img;
     cv_bitmap := invertPixels (rendered br) |}.

(** ** Sample pages and browsers *)

(** An element as the page delivers it: loaded, unmarked, unstyled. *)
Definition page_image (w h : Z) (s : string) : image :=
  {| dataset := ∅; naturalWidth := w; naturalHeight := h; src := s;
     complete := true; onload := None; style := ∅ |}.

(** A toy encoder for [toDataURL]: a data URL with one character per
    byte of the bitmap. *)
Definition toy_encode (cv : canvas) : string :=
  String.append "data:,"
    (fold_right (fun v s => String (ascii_of_nat (Z.to_nat v)) s) EmptyString
                (cv_bitmap cv)).

Definition sample_browser (ctx draw_b read_b : bool) (pixels : list Z) : browser :=
  {| has_2d_context := ctx; draw_blocked := draw_b; read_blocked := read_b;
     rendered := pixels; toDataURL := toy_encode |}.

(** A buffer of [n] pixels of one opaque grey level [v]. *)
Fixpoint uniform_pixels (n : nat) (v : Z) : list Z :=
  match n with
  | O => []
  | S n' => v :: v :: v :: 255 :: uniform_pixels n' v
  end.

(** A buffer of [5 * n] pixels, hence [n] samples, of which the first
    [k] sampled pixels are white and the others black: each sample
    stands for a group of 5 pixels of its colour. *)
Definition striped_pixels (n k : nat) : list Z :=
  uniform_pixels (5 * k) 255 ++ uniform_pixels (5 * (n - k)) 0.

(** The pixels of a 300 x 300 image (90000 pixels, 18000 samples) with
    90% of its sampled pixels bright, and with 30%. *)
Definition scenario_A_pixels : list Z := striped_pixels (Z.to_nat 18000) (Z.to_nat 16200).
Definition scenario_B_pixels : list Z := striped_pixels (Z.to_nat 18000) (Z.to_nat 5400).

(** ** Further vocabulary *)

(** The style [applyCssFallback] leaves on an element whose style was [s]. *)
Definition fallback_style (s : gmap string (string * string))
    : gmap string (string * string) :=
  <["background-color" := ("black", EmptyString)]>
    (<["filter" := (fallback_filter, "important")]> s).

(** Two buffers hold the same colour bytes at every sampled pixel. *)
Definition same_samples (d d' : list Z) : Prop :=
  forall i, (i mod 20 = 0)%nat ->
    d !! i = d' !! i /\ d !! (i + 1)%nat = d' !! (i + 1)%nat /\
    d !! (i + 2)%nat = d' !! (i + 2)%nat.

(** ** Case analysis on the paths of [processImage] *)

(** [H] is the disjunction of the seven paths, each with its conditions
    and the result of the call. *)
Ltac split_paths H :=
  destruct H as
    [(?Hsmall & ->)
    |[(?Hw & ?Hh & ?Hg & ->)
    |[(?He & ?Hc & ->)
    |[(?He & ?Hc & ?Hd & ->)
    |[(?He & ?Hc & ?Hd & ?Hr & ->)
    |[(?He & ?Hc & ?Hd & ?Hr & ?Hs & ->)
    |(?He & ?Hc & ?Hd & ?Hr & ?Hs & ->)]]]]]].

(** An event is in an explicit trace exactly under conditions on the
    path that are at hand. *)
Ltac path_iff :=
  let Hin := fresh "Hin" in
  let Hel := fresh "Hel" in
  split; [intros Hin | intros Hel];
  first
    [ solve [exfalso; revert Hin;
             let H := fresh in
             intros H;
             repeat (apply elem_of_cons in H as [H|H]; [discriminate H|]);
             by apply elem_of_nil in H]
    | solve [repeat (apply elem_of_cons; first [ by left | right ])]
    | solve [unfold eligible in *; intuition (lia || congruence)] ].

(** ** Proof automation *)

(** Linear arithmetic with division and remainder by constants. *)
Ltac dlia := zify; Z.div_mod_to_equations; lia.

(** Membership of an event in an explicit trace, and its negation. *)
Ltac trace_in := solve [repeat (apply elem_of_cons; first [ by left | right ])].
Ltac trace_not_in :=
  let H := fresh in
  intros H;
  repeat (apply elem_of_cons in H as [H|H]; [discriminate H|]);
  by apply elem_of_nil in H.

(** * Properties *)

(** ** The typed array *)

Lemma inv_byte_valid v : 0 <= v <= 255 -> inv_byte v = 255 - v.
Proof. unfold inv_byte, U8.clamp. lia. Qed.

Lemma inv_byte_involutive v : 0 <= v <= 255 -> inv_byte (inv_byte v) = v.
Proof. intros H. rewrite (inv_byte_valid v) by lia. rewrite inv_byte_valid; lia. Qed.

(** [d[i] = 255 - d[i]] updates the element in place, and does nothing
    past the end. *)
Lemma set_sub_get (d : list Z) (i : nat) :
  U8.set d i (sub_from_255 (U8.get d i)) = alter inv_byte i d.
Proof.
  unfold U8.set, U8.get. apply list_eq. intros j.
  destruct (decide (i = j)) as [->|Hne].
  - rewrite list_lookup_alter_eq.
    destruct (d !! j) as [v|] eqn:E; simpl.
    + rewrite list_lookup_insert_eq; [done|]. by eapply lookup_lt_Some.
    + rewrite list_insert_ge; [done|]. by apply lookup_ge_None.
  - by rewrite list_lookup_insert_ne, list_lookup_alter_ne.
Qed.

Lemma invertImage_loop_lookup (fuel i : nat) (d : list Z) (j : nat) :
  (i mod 4 = 0)%nat -> (length d <= i + 4 * fuel)%nat ->
  invertImage_loop fuel i d !! j =
  (if inverted_from i j then inv_byte else id) <$> d !! j.
Proof.
  revert i d. induction fuel as [|fuel IH]; intros i d Hi Hlen; simpl.
  - unfold inverted_from.
    destruct (Nat.leb_spec i j); simpl.
    + rewrite (proj2 (lookup_ge_None d j)) by lia. by destruct (negb _).
    + by destruct (d !! j).
  - destruct (Nat.ltb_spec i (length d)) as [Hlt|Hge].
    + rewrite !set_sub_get, IH.
      2: { dlia. }
      2: { rewrite !length_alter. lia. }
      unfold inverted_from.
      destruct (decide (j = i)) as [->|]; [|destruct (decide (j = i + 1)%nat) as [->|];
        [|destruct (decide (j = i + 2)%nat) as [->|]]].
      all: repeat first [ rewrite list_lookup_alter_eq | rewrite list_lookup_alter_ne by lia ].
      all: repeat match goal with
             | |- context [(?a <=? ?b)%nat] => destruct (Nat.leb_spec a b); try lia
             | |- context [(?a =? ?b)%nat] => destruct (Nat.eqb_spec a b); try dlia
             end; simpl; try by destruct (d !! _).
    + unfold inverted_from.
      destruct (Nat.leb_spec i j); simpl.
      * rewrite (proj2 (lookup_ge_None d j)) by lia. by destruct (negb _).
      * by destruct (d !! j).
Qed.

Lemma valid_lookup (d : list Z) (j : nat) (v : Z) :
  U8.valid d -> d !! j = Some v -> 0 <= v <= 255.
Proof.
  unfold U8.valid. intros Hd Hv.
  exact (Forall_lookup_1 (fun v => 0 <= v <= 255) d j v Hd Hv).
Qed.

(** The loop of [invertImage] leaves by its condition: more fuel changes
    nothing. *)
Lemma invertImage_loop_fuel (fuel fuel' i : nat) (d : list Z) :
  (i mod 4 = 0)%nat -> (length d <= i + 4 * fuel)%nat -> (fuel <= fuel')%nat ->
  invertImage_loop fuel' i d = invertImage_loop fuel i d.
Proof.
  intros Hi Hlen Hf. apply list_eq. intros j.
  rewrite !invertImage_loop_lookup by dlia. done.
Qed.

Lemma invertPixels_lookup (d : list Z) (j : nat) :
  invertPixels d !! j = (if (j mod 4 =? 3)%nat then id else inv_byte) <$> d !! j.
Proof.
  unfold invertPixels. rewrite invertImage_loop_lookup by dlia.
  unfold inverted_from. change (0 <=? j)%nat with true.
  destruct (j mod 4 =? 3)%nat; done.
Qed.

Lemma invertPixels_length (d : list Z) : length (invertPixels d) = length d.
Proof.
  apply Nat.le_antisymm; apply Nat.nlt_ge; intros H.
  - destruct (lookup_lt_is_Some_2 (invertPixels d) (length d) H) as [x Hx].
    rewrite invertPixels_lookup, (proj2 (lookup_ge_None d (length d))) in Hx by lia.
    discriminate.
  - destruct (lookup_lt_is_Some_2 d (length (invertPixels d)) H) as [x Hx].
    pose proof (invertPixels_lookup d (length (invertPixels d))) as E.
    rewrite Hx, (proj2 (lookup_ge_None (invertPixels d) _)) in E by lia.
    discriminate.
Qed.

(** Every colour channel byte becomes [255 - v]. *)
Lemma invertPixels_rgb (d : list Z) (j : nat) (v : Z) :
  U8.valid d -> (j mod 4 <> 3)%nat -> d !! j = Some v ->
  invertPixels d !! j = Some (255 - v).
Proof.
  intros Hd Hj Hv. rewrite invertPixels_lookup, Hv.
  destruct (Nat.eqb_spec (j mod 4) 3); [done|]. simpl.
  f_equal. apply inv_byte_valid. by eapply valid_lookup.
Qed.

Lemma invertPixels_alpha (d : list Z) (j : nat) :
  (j mod 4 = 3)%nat -> invertPixels d !! j = d !! j.
Proof.
  intros Hj. rewrite invertPixels_lookup, Hj. simpl. by destruct (d !! j).
Qed.

Lemma invertPixels_valid (d : list Z) : U8.valid d -> U8.valid (invertPixels d).
Proof.
  intros Hd. apply Forall_lookup. intros j x Hx.
  rewrite invertPixels_lookup in Hx.
  destruct (d !! j) as [v|] eqn:E; [|discriminate].
  pose proof (valid_lookup d j v Hd E) as Hv.
  destruct (j mod 4 =? 3)%nat; simpl in Hx; injection Hx as <-; [done|].
  rewrite inv_byte_valid; lia.
Qed.

Lemma invertPixels_involutive (d : list Z) :
  U8.valid d -> invertPixels (invertPixels d) = d.
Proof.
  intros Hd. apply list_eq. intros j.
  rewrite !invertPixels_lookup.
  destruct (d !! j) as [v|] eqn:E; [|done].
  pose proof (valid_lookup d j v Hd E) as Hv.
  destruct (j mod 4 =? 3)%nat; simpl; [done|].
  by rewrite inv_byte_involutive.
Qed.

(** C2: two applications of [invertImage] restore every red, green and
    blue byte of a pixel buffer (each becomes [255 - v] and then
    [255 - (255 - v) = v]), and one application leaves every alpha byte
    as it is. *)
Theorem invertImage_self_inverse (cv : canvas) (d : list Z) :
  U8.valid d ->
  let '(cv1, d1, _) := invertImage cv d in
  let '(cv2, d2, _) := invertImage cv1 d1 in
  (forall j v, (j mod 4 <> 3)%nat -> d !! j = Some v ->
     d1 !! j = Some (255 - v) /\ d2 !! j = Some v /\ 255 - (255 - v) = v) /\
  (forall j, (j mod 4 = 3)%nat -> d1 !! j = d !! j) /\
  length d1 = length d.
Proof.
  intros Hd. unfold invertImage. split; [|split].
  - intros j v Hj Hv. split; [|split].
    + by apply invertPixels_rgb.
    + by rewrite invertPixels_involutive.
    + lia.
  - intros j Hj. by apply invertPixels_alpha.
  - apply invertPixels_length.
Qed.

Lemma invertImage_self_inverse_witness :
  U8.valid [10; 200; 255; 128; 0; 77; 31; 255] /\
  let '(cv1, d1, _) :=
    invertImage {| cv_width := 2; cv_height := 1; cv_bitmap := [] |}
                [10; 200; 255; 128; 0; 77; 31; 255] in
  let '(cv2, d2, _) := invertImage cv1 d1 in
  (forall j v, (j mod 4 <> 3)%nat ->
     [10; 200; 255; 128; 0; 77; 31; 255] !! j = Some v ->
     d1 !! j = Some (255 - v) /\ d2 !! j = Some v /\ 255 - (255 - v) = v) /\
  (forall j, (j mod 4 = 3)%nat -> d1 !! j = [10; 200; 255; 128; 0; 77; 31; 255] !! j) /\
  length d1 = length [10; 200; 255; 128; 0; 77; 31; 255].
Proof.
  assert (Hv : U8.valid [10; 200; 255; 128; 0; 77; 31; 255])
    by (repeat constructor; lia).
  split; [exact Hv|].
  exact (invertImage_self_inverse
           {| cv_width := 2; cv_height := 1; cv_bitmap := [] |}
           [10; 200; 255; 128; 0; 77; 31; 255] Hv).
Defined.

Example invertImage_example :
  invertPixels [10; 200; 255; 128; 0; 77; 31; 255]
  = [245; 55; 0; 128; 255; 178; 224; 255].
Proof. reflexivity. Qed.

(** ** Binary64 arithmetic of the classifier *)

Lemma digits2_pos_size (p : positive) : digits2_pos p = Pos.size p.
Proof. induction p; simpl; congruence. Qed.

Lemma digits2_pos_bounds (p : positive) :
  2 ^ (Zpos (digits2_pos p) - 1) <= Zpos p < 2 ^ Zpos (digits2_pos p).
Proof.
  rewrite digits2_pos_size.
  pose proof (Pos.size_gt p) as Hgt. pose proof (Pos.size_le p) as Hle.
  apply Pos2Z.pos_lt_pos in Hgt. apply Pos2Z.pos_le_pos in Hle.
  rewrite Pos2Z.inj_pow in Hgt, Hle.
  replace (Zpos (Pos.size p)) with (Z.succ (Zpos (Pos.size p) - 1)) in Hle by lia.
  rewrite Z.pow_succ_r in Hle by lia. lia.
Qed.

Lemma digits2_pos_unique (p : positive) (n : Z) :
  2 ^ (n - 1) <= Zpos p < 2 ^ n -> Zpos (digits2_pos p) = n.
Proof.
  intros [Hlo Hhi]. pose proof (digits2_pos_bounds p) as [Hlo' Hhi'].
  assert (Hn : 0 < n).
  { destruct (Z_lt_le_dec 0 n) as [|Hn]; [done|].
    destruct (Z.eq_dec n 0) as [->|]; [simpl in Hhi; lia|].
    rewrite Z.pow_neg_r in Hhi by lia. lia. }
  destruct (Z.lt_trichotomy (Zpos (digits2_pos p)) n) as [H|[H|H]]; [|done|].
  - assert (2 ^ Zpos (digits2_pos p) <= 2 ^ (n - 1)) by (apply Z.pow_le_mono_r; lia). lia.
  - assert (2 ^ n <= 2 ^ (Zpos (digits2_pos p) - 1)) by (apply Z.pow_le_mono_r; lia). lia.
Qed.

(** ** Rounding *)

Lemma shr_record_of_loc_m m l : shr_m (shr_record_of_loc m l) = m.
Proof. by destruct l as [|[]]. Qed.

Lemma loc_of_shr_record_of_loc m l : loc_of_shr_record (shr_record_of_loc m l) = l.
Proof. by destruct l as [|[]]. Qed.

Lemma fexp_normal e : -1021 <= e -> fexp 53 1024 e = e - 53.
Proof. unfold fexp, emin. lia. Qed.

(** No shift for a mantissa of 53 digits. *)
Lemma shr_fexp_53 (m : positive) (e : Z) (l : location) :
  Zpos (digits2_pos m) = 53 -> -1074 <= e ->
  shr_fexp 53 1024 (Zpos m) e l = (shr_record_of_loc (Zpos m) l, e).
Proof.
  intros Hd He. unfold shr_fexp, Zdigits2. rewrite Hd, fexp_normal by lia.
  replace (53 + e - 53 - e) with 0 by lia. reflexivity.
Qed.

(** A shift by one for a mantissa of 54 digits. *)
Lemma shr_fexp_54 (m : positive) (e : Z) (l : location) :
  Zpos (digits2_pos m) = 54 -> -1074 <= e ->
  shr_fexp 53 1024 (Zpos m) e l = (shr_1 (shr_record_of_loc (Zpos m) l), e + 1).
Proof.
  intros Hd He. unfold shr_fexp, Zdigits2. rewrite Hd, fexp_normal by lia.
  replace (54 + e - 53 - e) with 1 by lia. reflexivity.
Qed.

Lemma new_location_ok (N r : Z) :
  0 <= r < N -> loc_ok N r (new_location N r).
Proof.
  intros Hr. unfold new_location, new_location_even, new_location_odd.
  destruct (Z.even N) eqn:Hev; destruct (Z.eqb_spec r 0) as [->|Hr0];
    cbn [loc_ok]; try done.
  - split; [lia|done].
  - split; [lia|].
    assert (Hodd : Z.odd N = true) by (rewrite <- Z.negb_even, Hev; done).
    apply Z.odd_spec in Hodd as [h Hh].
    destruct (Z.compare_spec (2 * r + 1) N), (Z.compare_spec (2 * r) N); try done; lia.
Qed.

Lemma P52_val : P52 = 4503599627370496.
Proof. reflexivity. Qed.

Lemma P53_val : P53 = 9007199254740992.
Proof. reflexivity. Qed.

(** Rounding a mantissa of 53 digits that needs no further shift, or
    that is exactly 2^53. *)
Lemma binary_round_aux_exact (m : Z) (e : Z) :
  P52 <= m <= P53 -> -1074 <= e <= 960 ->
  exists (m' : positive) (t : Z),
    (let '(mrs, e') := shr_fexp 53 1024 m e loc_Exact in
     match shr_m mrs with
     | Z0 => S754_zero false
     | Zpos m0 => if e' <=? 1024 - 53 then S754_finite false m0 e' else S754_infinity false
     | Zneg _ => S754_nan
     end) = S754_finite false m' (e + t) /\
    P52 <= Zpos m' < P53 /\ 0 <= t <= 1 /\ m = Zpos m' * 2 ^ t.
Proof.
  intros Hm He. rewrite P52_val, P53_val in *.
  destruct m as [|mp|mp]; [lia| |lia].
  destruct (Z.eq_dec (Zpos mp) 9007199254740992) as [Heq|Hne].
  - injection Heq as ->. exists 4503599627370496%positive, 1.
    rewrite shr_fexp_54 by (done || lia).
    cbn [shr_record_of_loc shr_1 shr_m].
    destruct (Z.leb_spec (e + 1) (1024 - 53)); [|lia].
    repeat split; lia.
  - exists mp, 0.
    rewrite shr_fexp_53; [| apply digits2_pos_unique; lia | lia].
    cbn [shr_record_of_loc shr_m].
    destruct (Z.leb_spec e (1024 - 53)); [|lia].
    rewrite Z.add_0_r. repeat split; lia.
Qed.

(** The quotient [q] and the remainder [r] of [X] by [N], with the
    location [l] of [X / N] above [q], as a division hands them to the
    rounding. *)
Section Quotient.

Variables N r : Z.
Hypothesis Hr : 0 <= r < N.

Lemma round_nearest_even_bound (X q : Z) (l : location) :
  X = N * q + r -> loc_ok N r l ->
  let m := round_nearest_even q l in
  q <= m <= q + 1 /\ 2 * X - N <= 2 * N * m <= 2 * X + N.
Proof.
  intros HX Hl. subst X.
  destruct l as [|[]]; cbn [round_nearest_even loc_ok] in *.
  - lia.
  - destruct Hl as [H0 Hc]. apply Z.compare_eq in Hc.
    destruct (Z.even q); lia.
  - destruct Hl as [H0 Hc]. change (2 * r < N) in Hc. lia.
  - destruct Hl as [H0 Hc]. change (2 * r > N) in Hc. lia.
Qed.

(** The same after the shift by one of a mantissa of 54 digits. *)
Lemma round_nearest_even_shr_1_bound (X : Z) (q : positive) (l : location) :
  X = N * Zpos q + r -> loc_ok N r l -> (1 < q)%positive ->
  let mrs := shr_1 (shr_record_of_loc (Zpos q) l) in
  let m := round_nearest_even (shr_m mrs) (loc_of_shr_record mrs) in
  Zpos q - 1 <= 2 * m <= Zpos q + 2 /\ 2 * X - 2 * N <= 4 * N * m <= 2 * X + 2 * N.
Proof.
  intros HX Hl Hq. subst X.
  assert (Hl' : match l with
                | loc_Exact => r = 0
                | loc_Inexact Eq => 0 < r /\ 2 * r = N
                | loc_Inexact Lt => 0 < r /\ 2 * r < N
                | loc_Inexact Gt => 0 < r /\ 2 * r > N
                end).
  { destruct l as [|[]]; cbn [loc_ok] in Hl; try done.
    destruct Hl as [H0 Hc]. apply Z.compare_eq in Hc. done. }
  clear Hl.
  destruct q as [p|p|]; [| |lia]; destruct l as [|[]];
    cbn [round_nearest_even shr_1 shr_record_of_loc shr_m loc_of_shr_record orb];
    try (destruct (Z.even (Zpos p))); lia.
Qed.

(** Rounding the quotient [q] (of 53 or 54 digits): the result is a
    normal number [m * 2^(e+t)] within half a unit in the last place of
    [X / N * 2^e]. *)
Lemma binary_round_aux_spec (X : Z) (q : positive) (e : Z) (l : location) :
  X = N * Zpos q + r -> loc_ok N r l ->
  P52 <= Zpos q < 2 * P53 -> -1074 <= e <= 950 ->
  exists (m : positive) (t : Z),
    binary_round_aux 53 1024 false (Zpos q) e l = S754_finite false m (e + t) /\
    P52 <= Zpos m < P53 /\ 0 <= t <= 2 /\
    2 * X - N * 2 ^ t <= 2 * N * (Zpos m * 2 ^ t) <= 2 * X + N * 2 ^ t.
Proof.
  intros HX Hl Hq He. unfold binary_round_aux.
  destruct (Z_lt_le_dec (Zpos q) P53) as [Hlt|Hge].
  - rewrite shr_fexp_53; [| apply digits2_pos_unique; rewrite P52_val, P53_val in *; lia | lia].
    rewrite shr_record_of_loc_m, loc_of_shr_record_of_loc.
    pose proof (round_nearest_even_bound X (Zpos q) l HX Hl) as [Hm HmX].
    destruct (binary_round_aux_exact (round_nearest_even (Zpos q) l) e)
      as (m' & t & Heq & Hm' & Ht & Hmt); [lia|lia|].
    exists m', t. rewrite Heq. split; [done|]. split; [done|]. split; [lia|].
    rewrite <- Hmt.
    assert (Ht' : t = 0 \/ t = 1) by lia.
    destruct Ht' as [->| ->]; [rewrite Z.pow_0_r | rewrite Z.pow_1_r]; lia.
  - rewrite shr_fexp_54; [| apply digits2_pos_unique; rewrite P52_val, P53_val in *; lia | lia].
    assert (Hq1 : (1 < q)%positive) by (rewrite P53_val in *; lia).
    pose proof (round_nearest_even_shr_1_bound X q l HX Hl Hq1) as [Hm HmX].
    set (mrs := shr_1 (shr_record_of_loc (Zpos q) l)) in *.
    destruct (binary_round_aux_exact (round_nearest_even (shr_m mrs) (loc_of_shr_record mrs)) (e + 1))
      as (m' & t & Heq & Hm' & Ht & Hmt);
      [rewrite P52_val, P53_val in *; lia|lia|].
    exists m', (1 + t). rewrite Heq. split; [f_equal; lia|]. split; [done|]. split; [lia|].
    rewrite Z.pow_add_r, Z.pow_1_r by lia.
    replace (Zpos m' * (2 * 2 ^ t)) with (2 * (Zpos m' * 2 ^ t)) by lia.
    rewrite <- Hmt.
    assert (Ht' : t = 0 \/ t = 1) by lia.
    destruct Ht' as [->| ->]; [rewrite Z.pow_0_r | rewrite Z.pow_1_r]; lia.
Qed.

End Quotient.

Lemma binary_round_aux_normal (s : bool) (m : positive) (e : Z) :
  P52 <= Zpos m < P53 -> -1074 <= e <= 960 ->
  binary_round_aux 53 1024 s (Zpos m) e loc_Exact = S754_finite s m e.
Proof.
  intros Hm He.
  assert (Hd : Zpos (digits2_pos m) = 53)
    by (apply digits2_pos_unique; rewrite P52_val, P53_val in *; lia).
  unfold binary_round_aux.
  rewrite shr_fexp_53 by (done || lia).
  cbn [shr_record_of_loc shr_m loc_of_shr_record round_nearest_even].
  rewrite shr_fexp_53 by (done || lia).
  cbn [shr_record_of_loc shr_m].
  destruct (Z.leb_spec e (1024 - 53)); [done|lia].
Qed.

Lemma iter_xO_pow (p n : positive) : Zpos (Pos.iter xO p n) = Zpos p * 2 ^ Zpos n.
Proof.
  induction n as [|n IH] using Pos.peano_ind.
  - simpl. lia.
  - rewrite Pos.iter_succ, Pos2Z.inj_xO, IH, Pos2Z.inj_succ, Z.pow_succ_r by lia. lia.
Qed.

(** The Number of a positive integer below 2^53 is the integer itself,
    with a mantissa of 53 digits. *)
Lemma of_int_spec (k : Z) :
  1 <= k < P53 ->
  exists (m : positive) (a : Z),
    Num.of_int k = S754_finite false m (- a) /\
    P52 <= Zpos m < P53 /\ 0 <= a <= 52 /\ Zpos m = k * 2 ^ a.
Proof.
  intros Hk. destruct k as [|p|p]; [lia| |lia].
  unfold Num.of_int, binary_normalize, binary_round, Num.prec, Num.emax.
  pose proof (digits2_pos_bounds p) as [Hlo Hhi].
  set (d := Zpos (digits2_pos p)) in *.
  assert (Hd1 : 1 <= d) by (unfold d; lia).
  assert (Hd53 : d <= 53).
  { destruct (Z_le_gt_dec d 53) as [|Hgt]; [done|].
    assert (2 ^ 53 <= 2 ^ (d - 1)) by (apply Z.pow_le_mono_r; lia).
    unfold P53 in Hk. lia. }
  rewrite fexp_normal by lia.
  unfold shl_align.
  assert (Hpow : 2 ^ (d - 1) * 2 ^ (53 - d) = P52).
  { rewrite <- Z.pow_add_r by lia. unfold P52. f_equal. lia. }
  assert (Hpow' : 2 ^ d * 2 ^ (53 - d) = P53).
  { rewrite <- Z.pow_add_r by lia. unfold P53. f_equal. lia. }
  assert (Hpos : 0 < 2 ^ (53 - d)) by (apply Z.pow_pos_nonneg; lia).
  destruct (d + 0 - 53 - 0) as [|n|n] eqn:Hn; [| lia |].
  - exists p, 0. replace (d + 0 - 53) with (- 0) by lia.
    assert (Hd : d = 53) by lia. rewrite Hd in *.
    change (2 ^ (53 - 53)) with 1 in *.
    rewrite binary_round_aux_normal by lia.
    repeat split; try lia.
  - exists (Pos.iter xO p n), (Zpos n).
    assert (Hdn : 53 - d = Zpos n) by lia.
    rewrite Hdn in *.
    pose proof (iter_xO_pow p n) as Hit.
    replace (d + 0 - 53) with (- Zpos n) by lia.
    rewrite binary_round_aux_normal by nia.
    repeat split; try lia; try nia.
Qed.

(** Division of two normal numbers: the quotient of the mantissas,
    scaled to 53 or 54 digits, is rounded. *)
Lemma SFdiv_normal (mx my : positive) (ex ey : Z) :
  P52 <= Zpos mx < P53 -> P52 <= Zpos my < P53 ->
  -500 <= ex <= 500 -> -500 <= ey <= 500 ->
  SFdiv 53 1024 (S754_finite false mx ex) (S754_finite false my ey) =
  binary_round_aux 53 1024 false
    (Zpos mx * P53 / Zpos my) (ex - ey - 53)
    (new_location (Zpos my) ((Zpos mx * P53) mod Zpos my)).
Proof.
  intros Hx Hy Hex Hey.
  assert (Hdx : Zpos (digits2_pos mx) = 53)
    by (apply digits2_pos_unique; rewrite P52_val, P53_val in *; lia).
  assert (Hdy : Zpos (digits2_pos my) = 53)
    by (apply digits2_pos_unique; rewrite P52_val, P53_val in *; lia).
  unfold SFdiv, SFdiv_core_binary. cbn [xorb Zdigits2].
  rewrite Hdx, Hdy, fexp_normal by lia.
  replace (Z.min (53 + ex - (53 + ey) - 53) (ex - ey)) with (ex - ey - 53) by lia.
  replace (ex - ey - (ex - ey - 53)) with 53 by lia.
  cbv iota.
  rewrite Z.shiftl_mul_pow2 by lia. fold P53.
  unfold Z.div, Z.modulo.
  destruct (Z.div_eucl (Zpos mx * P53) (Zpos my)) as [q r]. reflexivity.
Qed.

(** The quotient of two integers [1 <= k <= n < 2^53] as a Number: a
    normal number [m * 2^-E] within half a unit in the last place of
    [k / n]. *)
Lemma div_of_int_spec (k n : Z) :
  1 <= k <= n -> n < P53 ->
  exists (m : positive) (E : Z),
    Num.div (Num.of_int k) (Num.of_int n) = S754_finite false m (- E) /\
    P52 <= Zpos m < P53 /\ 0 <= E <= 200 /\
    2 * k * 2 ^ E - n <= 2 * n * Zpos m <= 2 * k * 2 ^ E + n.
Proof.
  intros Hk Hn.
  destruct (of_int_spec k) as (mk & a & Hek & Hmk & Ha & HK); [lia|].
  destruct (of_int_spec n) as (mn & b & Hen & Hmn & Hb & HN); [lia|].
  assert (Hpa : 0 < 2 ^ a) by (apply Z.pow_pos_nonneg; lia).
  assert (Hpb : 0 < 2 ^ b) by (apply Z.pow_pos_nonneg; lia).
  assert (Hab : b <= a).
  { destruct (Z_le_gt_dec b a) as [|Hgt]; [done|].
    assert (2 * 2 ^ a <= 2 ^ b).
    { replace b with (Z.succ a + (b - Z.succ a)) by lia.
      rewrite Z.pow_add_r, Z.pow_succ_r by lia.
      assert (0 < 2 ^ (b - Z.succ a)) by (apply Z.pow_pos_nonneg; lia). nia. }
    unfold P52, P53 in *. nia. }
  unfold Num.div, Num.prec, Num.emax. rewrite Hek, Hen.
  rewrite SFdiv_normal by lia.
  set (X := Zpos mk * P53). set (N := Zpos mn).
  assert (HNpos : 0 < N) by (unfold N; lia).
  pose proof (Z.div_mod X N ltac:(lia)) as Hdm.
  pose proof (Z.mod_pos_bound X N HNpos) as Hr.
  assert (Hq : P52 <= X / N < 2 * P53).
  { split.
    - apply Z.div_le_lower_bound; [lia|]. unfold X, N. unfold P52, P53 in *. nia.
    - apply Z.div_lt_upper_bound; [lia|]. unfold X, N. unfold P52, P53 in *. nia. }
  rewrite P52_val, P53_val in Hq.
  destruct (X / N) as [|q|q] eqn:Eq; [lia| |lia].
  destruct (binary_round_aux_spec N (X mod N) Hr X q (- a - - b - 53)
              (new_location N (X mod N)))
    as (m & t & Hres & Hm & Ht & Hbound);
    [lia | by apply new_location_ok | rewrite P52_val, P53_val; lia | lia |].
  exists m, (a - b + 53 - t). rewrite Hres.
  split; [f_equal; lia|]. split; [done|]. split; [lia|].
  assert (Hc : 0 < 2 ^ (b + t)) by (apply Z.pow_pos_nonneg; lia).
  assert (HX : X = k * 2 ^ (a - b + 53 - t) * 2 ^ (b + t)).
  { unfold X, P53. rewrite HK, <- !Z.mul_assoc, <- !Z.pow_add_r by lia.
    do 2 f_equal. lia. }
  assert (HNt : N * 2 ^ t = n * 2 ^ (b + t)).
  { unfold N. rewrite HN, <- !Z.mul_assoc, <- !Z.pow_add_r by lia. done. }
  replace (2 * N * (Zpos m * 2 ^ t)) with (2 * Zpos m * (N * 2 ^ t)) in Hbound by lia.
  rewrite HNt, HX in Hbound.
  set (c := 2 ^ (b + t)) in *. set (w := 2 ^ (a - b + 53 - t)) in *.
  split; nia.
Qed.


(** The literal [0.6] is the binary64 value nearest to 6/10: it lies
    2^-53 / 5 below it, and its successor 4 * 2^-53 / 5 above. *)
Lemma lit_0_6_nearest :
  Num.div (Num.of_int 6) (Num.of_int 10) = Num.lit_0_6 /\
  3 * P53 - 5 * 5404319552844595 = 1 /\
  5 * (5404319552844595 + 1) - 3 * P53 = 4.
Proof. repeat split. Qed.

(** [brightPixels / samples > 0.6] in binary64 decides the ratio exactly:
    it holds exactly when [5 * k > 3 * n]. *)
Lemma gt_div_0_6 (k n : Z) :
  0 <= k <= n -> n < P52 ->
  Num.gt (Num.div (Num.of_int k) (Num.of_int n)) Num.lit_0_6 = (3 * n <? 5 * k).
Proof.
  intros Hk Hn. rewrite P52_val in Hn.
  destruct (Z.eq_dec n 0) as [->|Hn0].
  { assert (k = 0) as -> by lia. reflexivity. }
  destruct (Z.eq_dec k 0) as [->|Hk0].
  { destruct (of_int_spec n) as (mn & b & Hen & _); [rewrite P53_val; lia|].
    rewrite Hen. destruct (Z.ltb_spec (3 * n) (5 * 0)); [lia|]. reflexivity. }
  destruct (div_of_int_spec k n) as (m & E & Hres & Hm & HE & Hb);
    [lia | rewrite P53_val; lia |].
  rewrite Hres. unfold Num.gt, Num.lit_0_6, SFltb, SFcompare.
  rewrite P52_val, P53_val in Hm.
  assert (Hmono : forall x y, x <= y -> n * x <= n * y)
    by (intros x y Hxy; apply Z.mul_le_mono_nonneg_l; lia).
  assert (Hmonok : forall x y, x <= y -> k * x <= k * y)
    by (intros x y Hxy; apply Z.mul_le_mono_nonneg_l; lia).
  pose proof (Hmono 4503599627370496 (Zpos m) ltac:(lia)) as Hlo.
  pose proof (Hmono (Zpos m) 9007199254740991 ltac:(lia)) as Hhi.
  destruct (Z.compare_spec (-53) (- E)) as [Heq|Hlt|Hgt].
  - assert (E = 53) as -> by lia.
    change (2 ^ 53) with 9007199254740992 in Hb.
    change (Pos.compare_cont Eq 5404319552844595 m) with (5404319552844595 ?= Zpos m).
    destruct (Z.compare_spec 5404319552844595 (Zpos m)) as [Hc|Hc|Hc];
      destruct (Z.ltb_spec (3 * n) (5 * k)); try done; exfalso.
    + rewrite <- Hc in Hb. lia.
    + pose proof (Hmono 5404319552844596 (Zpos m) ltac:(lia)). lia.
    + pose proof (Hmono (Zpos m) 5404319552844594 ltac:(lia)). lia.
  - assert (Hp : 0 < 2 ^ E <= 2 ^ 52)
      by (split; [apply Z.pow_pos_nonneg; lia | apply Z.pow_le_mono_r; lia]).
    change (2 ^ 52) with 4503599627370496 in Hp.
    pose proof (Hmonok (2 ^ E) 4503599627370496 ltac:(lia)).
    destruct (Z.ltb_spec (3 * n) (5 * k)); [done|]. exfalso. lia.
  - assert (Hp : 2 ^ 54 <= 2 ^ E) by (apply Z.pow_le_mono_r; lia).
    change (2 ^ 54) with 18014398509481984 in Hp.
    pose proof (Hmonok 18014398509481984 (2 ^ E) ltac:(lia)).
    destruct (Z.ltb_spec (3 * n) (5 * k)); [|done]. exfalso. lia.
Qed.

(** ** The brightness test, by enumeration of the channel sums *)

Lemma forallb_seqZ (f : Z -> bool) (n z : Z) :
  forallb f (seqZ 0 n) = true -> 0 <= z < n -> f z = true.
Proof.
  intros H Hz. apply (proj1 (forallb_forall f (seqZ 0 n)) H).
  apply list_elem_of_In, elem_of_seqZ. lia.
Qed.

Lemma brightness_exact_766 : Enum.brightness_exact 766 = true.
Proof. vm_compute. reflexivity. Qed.

Lemma brightness_exact_sound (n s : Z) :
  Enum.brightness_exact n = true -> 0 <= s < n ->
  Num.gt (Num.div (Num.of_int s) Num.lit_3) Num.lit_200 = (600 <? s).
Proof.
  unfold Enum.brightness_exact. intros H Hs.
  apply Bool.eqb_prop.
  exact (forallb_seqZ
    (fun s => Bool.eqb (Num.gt (Num.div (Num.of_int s) Num.lit_3) Num.lit_200) (600 <? s))
    n s H Hs).
Qed.

(** ** Addition of integers is exact *)

Lemma iter_pos_nat {A : Type} (f : A -> A) (n : positive) (x : A) :
  @SpecFloat.iter_pos A f n x = Nat.iter (Pos.to_nat n) f x.
Proof.
  revert x. induction n as [n IH|n IH|]; intros x; cbn [SpecFloat.iter_pos].
  - rewrite !IH, Pos2Nat.inj_xI. cbn [Nat.iter].
    rewrite <- Nat.iter_succ_r, <- Nat.iter_add. f_equal. lia.
  - rewrite !IH, Pos2Nat.inj_xO, <- Nat.iter_add. f_equal. lia.
  - reflexivity.
Qed.

(** Shifting out [c] zero bits is exact. *)
Lemma iter_shr_1_exact (c : nat) (m : positive) :
  Nat.iter c shr_1
    {| shr_m := Zpos m * 2 ^ Z.of_nat c; shr_r := false; shr_s := false |}
  = {| shr_m := Zpos m; shr_r := false; shr_s := false |}.
Proof.
  induction c as [|c IH].
  - cbn [Nat.iter]. by rewrite Z.pow_0_r, Z.mul_1_r.
  - rewrite Nat.iter_succ_r.
    assert (Hq : exists q, Zpos m * 2 ^ Z.of_nat c = Zpos q).
    { assert (0 < Zpos m * 2 ^ Z.of_nat c)
        by (apply Z.mul_pos_pos; [lia | apply Z.pow_pos_nonneg; lia]).
      destruct (Zpos m * 2 ^ Z.of_nat c) as [|q|q]; [lia| |lia]. by exists q. }
    destruct Hq as [q Hq].
    replace (Zpos m * 2 ^ Z.of_nat (S c)) with (Zpos (xO q)).
    2: { rewrite Pos2Z.inj_xO, <- Hq, Nat2Z.inj_succ, Z.pow_succ_r by lia. lia. }
    cbn [shr_1 orb]. rewrite <- Hq. exact IH.
Qed.

(** Rounding [m * 2^c], with [m] of 53 digits: the [c] zero bits are
    shifted out. *)
Lemma binary_round_aux_shr_exact (s : bool) (m : positive) (c e : Z) :
  P52 <= Zpos m < P53 -> 0 <= c -> -1074 <= e -> e + c <= 960 ->
  binary_round_aux 53 1024 s (Zpos m * 2 ^ c) e loc_Exact = S754_finite s m (e + c).
Proof.
  intros Hm Hc He Hec.
  destruct (Z.eq_dec c 0) as [->|Hc0].
  { rewrite Z.pow_0_r, Z.mul_1_r, Z.add_0_r. apply binary_round_aux_normal; lia. }
  assert (Hq : exists q, Zpos m * 2 ^ c = Zpos q).
  { assert (0 < Zpos m * 2 ^ c)
      by (apply Z.mul_pos_pos; [lia | apply Z.pow_pos_nonneg; lia]).
    destruct (Zpos m * 2 ^ c) as [|q|q]; [lia| |lia]. by exists q. }
  destruct Hq as [q Hq].
  assert (Hdq : Zpos (digits2_pos q) = 53 + c).
  { apply digits2_pos_unique. rewrite <- Hq.
    replace (53 + c - 1) with (52 + c) by lia.
    rewrite !Z.pow_add_r by lia. fold P52 P53.
    assert (0 < 2 ^ c) by (apply Z.pow_pos_nonneg; lia). nia. }
  unfold binary_round_aux. rewrite Hq.
  unfold shr_fexp at 1. cbn [Zdigits2]. rewrite Hdq, fexp_normal by lia.
  replace (53 + c + e - 53 - e) with c by lia.
  destruct c as [|cp|cp]; [lia| |lia].
  cbn [shr shr_record_of_loc].
  rewrite iter_pos_nat, <- Hq.
  rewrite <- (positive_nat_Z cp), iter_shr_1_exact.
  cbn [shr_m loc_of_shr_record round_nearest_even].
  rewrite positive_nat_Z.
  rewrite shr_fexp_53; [| apply digits2_pos_unique; rewrite P52_val, P53_val in *; lia | lia].
  cbn [shr_record_of_loc shr_m].
  destruct (Z.leb_spec (e + Zpos cp) (1024 - 53)); [done|lia].
Qed.

Lemma of_int_unique (k : Z) (m : positive) (a : Z) :
  1 <= k -> P52 <= Zpos m < P53 -> 0 <= a -> Zpos m = k * 2 ^ a ->
  Num.of_int k = S754_finite false m (- a).
Proof.
  intros Hk Hm Ha Hka.
  assert (Hpa : 0 < 2 ^ a) by (apply Z.pow_pos_nonneg; lia).
  destruct (of_int_spec k) as (m' & a' & He & Hm' & Ha' & Hka'); [nia|].
  assert (Hpa' : 0 < 2 ^ a') by (apply Z.pow_pos_nonneg; lia).
  rewrite He. unfold P52, P53 in *.
  destruct (Z.lt_trichotomy a a') as [Hlt|[<-|Hlt]].
  - exfalso.
    assert (2 * 2 ^ a <= 2 ^ a').
    { replace a' with (Z.succ a + (a' - Z.succ a)) by lia.
      rewrite Z.pow_add_r, Z.pow_succ_r by lia.
      assert (0 < 2 ^ (a' - Z.succ a)) by (apply Z.pow_pos_nonneg; lia). nia. }
    nia.
  - f_equal. lia.
  - exfalso.
    assert (2 * 2 ^ a' <= 2 ^ a).
    { replace a with (Z.succ a' + (a - Z.succ a')) by lia.
      rewrite Z.pow_add_r, Z.pow_succ_r by lia.
      assert (0 < 2 ^ (a - Z.succ a')) by (apply Z.pow_pos_nonneg; lia). nia. }
    nia.
Qed.

Lemma shl_align_fst (m : positive) (e ez : Z) :
  ez <= e -> Zpos (fst (shl_align m e ez)) = Zpos m * 2 ^ (e - ez).
Proof.
  intros H. unfold shl_align.
  destruct (ez - e) as [|d|d] eqn:Hd; cbn [fst].
  - replace (e - ez) with 0 by lia. lia.
  - lia.
  - rewrite iter_xO_pow. do 2 f_equal. lia.
Qed.

(** Number addition of non-negative integers is integer addition, as
    long as the sum is below 2^53. *)
Lemma add_of_int (x y : Z) :
  0 <= x -> 0 <= y -> x + y < P53 ->
  Num.add (Num.of_int x) (Num.of_int y) = Num.of_int (x + y).
Proof.
  intros Hx Hy Hxy.
  destruct (Z.eq_dec x 0) as [->|Hx0].
  { destruct (Z.eq_dec y 0) as [->|Hy0]; [reflexivity|].
    destruct (of_int_spec y) as (my & b & Hey & _); [lia|].
    rewrite Z.add_0_l, Hey. reflexivity. }
  destruct (Z.eq_dec y 0) as [->|Hy0].
  { destruct (of_int_spec x) as (mx & a & Hex & _); [lia|].
    rewrite Z.add_0_r, Hex. reflexivity. }
  destruct (of_int_spec x) as (mx & a & Hex & Hmx & Ha & HX); [lia|].
  destruct (of_int_spec y) as (my & b & Hey & Hmy & Hb & HY); [lia|].
  destruct (of_int_spec (x + y)) as (ms & c & Hes & Hms & Hc & HS); [lia|].
  rewrite Hex, Hey, Hes.
  unfold Num.add, SFadd, Num.prec, Num.emax. cbn [cond_Zopp].
  rewrite !shl_align_fst by lia.
  assert (Hpa : 0 < 2 ^ a) by (apply Z.pow_pos_nonneg; lia).
  assert (Hpb : 0 < 2 ^ b) by (apply Z.pow_pos_nonneg; lia).
  assert (Hpc : 0 < 2 ^ c) by (apply Z.pow_pos_nonneg; lia).
  assert (Hpow : forall u v, 0 <= u < v -> 2 * 2 ^ u <= 2 ^ v).
  { intros u v Huv. replace v with (Z.succ u + (v - Z.succ u)) by lia.
    rewrite Z.pow_add_r, Z.pow_succ_r by lia.
    assert (0 < 2 ^ u) by (apply Z.pow_pos_nonneg; lia).
    assert (0 < 2 ^ (v - Z.succ u)) by (apply Z.pow_pos_nonneg; lia). nia. }
  assert (Hca : c <= a).
  { destruct (Z_le_gt_dec c a) as [|Hgt]; [done|].
    pose proof (Hpow a c ltac:(lia)). unfold P52, P53 in *. nia. }
  set (A := Z.max a b).
  replace (Z.min (- a) (- b)) with (- A) by (unfold A; lia).
  assert (Hsum : Zpos mx * 2 ^ (- a - - A) + Zpos my * 2 ^ (- b - - A)
                 = Zpos ms * 2 ^ (A - c)).
  { rewrite HX, HY, HS, <- !Z.mul_assoc, <- !Z.pow_add_r by (unfold A; lia).
    replace (a + (- a - - A)) with A by lia.
    replace (b + (- b - - A)) with A by lia.
    replace (c + (A - c)) with A by lia. lia. }
  rewrite Hsum.
  assert (HAc : 0 <= A - c) by (unfold A; lia).
  assert (Hq : exists q, Zpos ms * 2 ^ (A - c) = Zpos q).
  { assert (0 < Zpos ms * 2 ^ (A - c))
      by (apply Z.mul_pos_pos; [lia | apply Z.pow_pos_nonneg; lia]).
    destruct (Zpos ms * 2 ^ (A - c)) as [|q|q]; [lia| |lia]. by exists q. }
  destruct Hq as [q Hq].
  assert (Hdq : Zpos (digits2_pos q) = 53 + (A - c)).
  { apply digits2_pos_unique. rewrite <- Hq.
    replace (53 + (A - c) - 1) with (52 + (A - c)) by lia.
    rewrite !Z.pow_add_r by lia. fold P52 P53.
    assert (0 < 2 ^ (A - c)) by (apply Z.pow_pos_nonneg; lia). nia. }
  rewrite Hq. unfold binary_normalize, binary_round.
  rewrite Hdq, fexp_normal by (unfold A; lia).
  unfold shl_align.
  replace (53 + (A - c) + - A - 53 - - A) with (A - c) by lia.
  destruct (A - c) as [|d|d] eqn:Hd; [| |lia].
  - rewrite <- Hq, Z.pow_0_r, Z.mul_1_r.
    rewrite binary_round_aux_normal by (unfold A; lia).
    f_equal. lia.
  - rewrite <- Hq, binary_round_aux_shr_exact by (unfold A; lia).
    f_equal. lia.
Qed.

(** ** The brightness test on three bytes *)

(** The test [(r + g + b) / 3 > 200] of the code, on three bytes. *)
Lemma brightness_test (r g b : Z) :
  0 <= r <= 255 -> 0 <= g <= 255 -> 0 <= b <= 255 ->
  Num.gt (Num.div (Num.add (Num.add (Num.of_int r) (Num.of_int g)) (Num.of_int b))
                  Num.lit_3) Num.lit_200
  = (600 <? r + g + b).
Proof.
  intros Hr Hg Hb.
  rewrite !add_of_int by (rewrite ?P53_val; lia).
  apply (brightness_exact_sound 766); [exact brightness_exact_766 | lia].
Qed.

(** The mean of three channel values is above 200 exactly when their sum
    is above 600. *)
Lemma Rule_bright_sum (r g b : Z) : Rule.bright r g b = (600 <? r + g + b).
Proof.
  unfold Rule.bright, Rule.mean, Qle_bool, Qdiv, Qmult, Qinv, inject_Z.
  cbn [Qnum Qden].
  destruct (Z.leb_spec ((r + g + b) * 1 * 1) (200 * Zpos (1 * 3)));
    destruct (Z.ltb_spec 600 (r + g + b)); simpl; lia.
Qed.

Lemma Rule_bright_mean (r g b : Z) :
  Rule.bright r g b = true <-> (inject_Z 200 < Rule.mean r g b)%Q.
Proof.
  unfold Rule.bright. rewrite negb_true_iff, <- not_true_iff_false, Qle_bool_iff.
  split; [apply Qnot_le_lt | apply Qlt_not_le].
Qed.

(** ** The classifier *)

Lemma add_nan_r (x : Num.t) : Num.add x Num.NaN = Num.NaN.
Proof. by destruct x. Qed.

Lemma brightness_reads (data : list Z) (i : nat) :
  U8.valid data ->
  Num.gt (Num.div (Num.add (Num.add (Num.of_read (U8.get data i))
                                    (Num.of_read (U8.get data (i + 1))))
                           (Num.of_read (U8.get data (i + 2))))
                  Num.lit_3) Num.lit_200
  = Rule.bright_at data i.
Proof.
  intros Hd. unfold U8.get, Rule.bright_at.
  destruct (data !! i) as [r|] eqn:Er; cbn [Num.of_read].
  2: { reflexivity. }
  destruct (data !! (i + 1)%nat) as [g|] eqn:Eg; cbn [Num.of_read].
  2: { rewrite add_nan_r. reflexivity. }
  destruct (data !! (i + 2)%nat) as [b|] eqn:Eb; cbn [Num.of_read].
  2: { rewrite add_nan_r. reflexivity. }
  rewrite Rule_bright_sum. apply brightness_test; by eapply valid_lookup.
Qed.

Lemma filter_length_le {A : Type} (f : A -> bool) (l : list A) :
  (length (List.filter f l) <= length l)%nat.
Proof. induction l as [|x l IH]; simpl; [lia|]. destruct (f x); simpl; lia. Qed.

Lemma offsets_from_length (i n : nat) : length (Rule.offsets_from i n) = n.
Proof. revert i. induction n as [|n IH]; intros i; simpl; [done|]. by rewrite IH. Qed.

(** The loop of [shouldInvert] leaves by its condition: more fuel changes
    nothing. *)
Lemma shouldInvert_loop_fuel (fuel fuel' : nat) (data : list Z) (i : nat)
    (b s : Num.t) :
  (length data <= i + 20 * fuel)%nat -> (fuel <= fuel')%nat ->
  shouldInvert_loop fuel' data i b s = shouldInvert_loop fuel data i b s.
Proof.
  revert fuel' i b s.
  induction fuel as [|fuel IH]; intros fuel' i b s Hlen Hf.
  - destruct fuel' as [|fuel']; [done|]. cbn [shouldInvert_loop].
    destruct (Nat.ltb_spec i (length data)); [lia|done].
  - destruct fuel' as [|fuel']; [lia|]. cbn [shouldInvert_loop].
    destruct (Nat.ltb_spec i (length data)); [|done].
    apply IH; lia.
Qed.

(** The counters at loop exit: the samples taken and, among them, the
    bright ones. *)
Lemma shouldInvert_loop_spec (fuel : nat) (data : list Z) (i : nat) (b s : Z) :
  U8.valid data -> (length data <= i + 20 * fuel)%nat ->
  0 <= b -> 0 <= s ->
  let n := ((length data + 19 - i) / 20)%nat in
  b + Z.of_nat n < P53 -> s + Z.of_nat n < P53 ->
  shouldInvert_loop fuel data i (Num.of_int b) (Num.of_int s) =
  (Num.of_int (b + Z.of_nat (length (List.filter (Rule.bright_at data)
                                       (Rule.offsets_from i n)))),
   Num.of_int (s + Z.of_nat n)).
Proof.
  intros Hd. revert i b s.
  induction fuel as [|fuel IH]; intros i b s Hlen Hb Hs n Hbn Hsn.
  - assert (Hn : n = 0%nat) by (unfold n; dlia).
    rewrite Hn. simpl. by rewrite !Z.add_0_r.
  - cbn [shouldInvert_loop].
    destruct (Nat.ltb_spec i (length data)) as [Hlt|Hge].
    + assert (Hn : n = S ((length data + 19 - (i + 20)) / 20)) by (unfold n; dlia).
      rewrite brightness_reads by done.
      unfold Num.lit_1. rewrite Hn in *. cbn [Rule.offsets_from List.filter].
      rewrite (add_of_int s 1) by lia.
      destruct (Rule.bright_at data i).
      * rewrite (add_of_int b 1) by lia.
        rewrite IH by lia. cbn [length]. do 2 f_equal; lia.
      * pose proof (filter_length_le (Rule.bright_at data)
          (Rule.offsets_from (i + 20) ((length data + 19 - (i + 20)) / 20))) as Hf.
        rewrite offsets_from_length in Hf.
        rewrite IH by lia. do 2 f_equal; lia.
    + assert (Hn : n = 0%nat) by (unfold n; dlia).
      rewrite Hn. simpl. by rewrite !Z.add_0_r.
Qed.

(** The number of samples does not depend on the pixel values. *)
Lemma shouldInvert_loop_samples (fuel : nat) (data : list Z) (i : nat)
    (b : Num.t) (s : Z) :
  (length data <= i + 20 * fuel)%nat -> 0 <= s ->
  let n := ((length data + 19 - i) / 20)%nat in
  s + Z.of_nat n < P53 ->
  snd (shouldInvert_loop fuel data i b (Num.of_int s)) = Num.of_int (s + Z.of_nat n).
Proof.
  revert i b s.
  induction fuel as [|fuel IH]; intros i b s Hlen Hs n Hsn.
  - assert (Hn : n = 0%nat) by (unfold n; dlia).
    rewrite Hn. simpl. by rewrite Z.add_0_r.
  - cbn [shouldInvert_loop].
    destruct (Nat.ltb_spec i (length data)) as [Hlt|Hge].
    + assert (Hn : n = S ((length data + 19 - (i + 20)) / 20)) by (unfold n; dlia).
      unfold Num.lit_1. rewrite Hn in *.
      rewrite (add_of_int s 1) by lia.
      rewrite IH by lia. f_equal. lia.
    + assert (Hn : n = 0%nat) by (unfold n; dlia).
      rewrite Hn. simpl. by rewrite Z.add_0_r.
Qed.

Lemma shouldInvert_counts_spec (data : list Z) :
  U8.valid data -> Z.of_nat (length data) <= U8.max_length ->
  shouldInvert_counts data =
  (Num.of_int (Rule.bright_count data), Num.of_int (Rule.total_count data)).
Proof.
  intros Hd Hlen. unfold U8.max_length in Hlen.
  unfold shouldInvert_counts, Num.lit_0, Rule.bright_count, Rule.total_count,
    Rule.sample_offsets.
  rewrite offsets_from_length.
  assert (Hn : Z.of_nat ((length data + 19) / 20) < 4503599627370496) by dlia.
  rewrite (shouldInvert_loop_spec (S (length data)) data 0 0 0);
    rewrite ?Nat.sub_0_r, ?P53_val; try done; lia.
Qed.

Lemma bright_le_total (data : list Z) :
  0 <= Rule.bright_count data <= Rule.total_count data.
Proof.
  unfold Rule.bright_count, Rule.total_count.
  pose proof (filter_length_le (Rule.bright_at data)
    (Rule.sample_offsets (length data))). lia.
Qed.

(** The verdict of [shouldInvert] is the exact comparison of the ratio
    with 3/5. *)
Lemma shouldInvert_spec (data : list Z) :
  U8.valid data -> Z.of_nat (length data) <= U8.max_length ->
  shouldInvert data = (3 * Rule.total_count data <? 5 * Rule.bright_count data).
Proof.
  intros Hd Hlen. unfold shouldInvert.
  rewrite shouldInvert_counts_spec by done.
  apply gt_div_0_6; [apply bright_le_total|].
  unfold Rule.total_count, Rule.sample_offsets. rewrite offsets_from_length.
  unfold U8.max_length in Hlen. rewrite P52_val. dlia.
Qed.

Lemma ratio_gt_0_6_iff (brights total : Z) :
  Rule.ratio_gt_0_6 brights total <-> 0 < total /\ 3 * total < 5 * brights.
Proof.
  unfold Rule.ratio_gt_0_6. split; intros [Ht H]; (split; [done|]);
    destruct total as [|t|t]; try lia;
    unfold Qlt, Qdiv, Qmult, Qinv, inject_Z in *; cbn [Qnum Qden] in *; lia.
Qed.

(** The sampling visits the byte offsets that are multiples of 20 (every
    fifth pixel) below the length of the buffer. *)
Lemma offsets_from_elem (i n j : nat) :
  j ∈ Rule.offsets_from i n <-> exists k, (k < n /\ j = i + 20 * k)%nat.
Proof.
  revert i. induction n as [|n IH]; intros i; cbn [Rule.offsets_from].
  - split; [intros H; inversion H | intros (k & Hk & _); lia].
  - rewrite elem_of_cons, IH. split.
    + intros [->|(k & Hk & ->)]; [exists 0%nat; lia | exists (S k); lia].
    + intros (k & Hk & ->). destruct k as [|k]; [left; lia | right; exists k; lia].
Qed.

Lemma sample_offsets_elem (len j : nat) :
  j ∈ Rule.sample_offsets len <-> (j < len /\ j mod 20 = 0)%nat.
Proof.
  unfold Rule.sample_offsets. rewrite offsets_from_elem. split.
  - intros (k & Hk & ->). dlia.
  - intros [Hj Hm]. exists (j / 20)%nat. dlia.
Qed.

(** C1: on every pixel buffer, [shouldInvert] counts a sampled pixel as
    bright exactly when the mean of its red, green and blue values is
    strictly greater than 200, and returns true exactly when the ratio of
    bright samples to samples is strictly greater than 0.6: true with at
    least 61% bright samples, false with 60% or fewer. *)
Theorem shouldInvert_threshold (data : list Z) :
  U8.valid data -> Z.of_nat (length data) <= U8.max_length ->
  let brights := Rule.bright_count data in
  let total := Rule.total_count data in
  (forall i r g b,
     data !! i = Some r -> data !! (i + 1)%nat = Some g ->
     data !! (i + 2)%nat = Some b ->
     Num.gt (Num.div (Num.add (Num.add (Num.of_int r) (Num.of_int g)) (Num.of_int b))
                     Num.lit_3) Num.lit_200 = true
     <-> (inject_Z 200 < Rule.mean r g b)%Q) /\
  shouldInvert_counts data = (Num.of_int brights, Num.of_int total) /\
  (shouldInvert data = true <-> Rule.ratio_gt_0_6 brights total) /\
  (0 < total -> 61 * total <= 100 * brights -> shouldInvert data = true) /\
  (100 * brights <= 60 * total -> shouldInvert data = false).
Proof.
  intros Hd Hlen brights total.
  pose proof (shouldInvert_spec data Hd Hlen) as Hs. fold brights total in Hs.
  split.
  { intros i r g b Hr Hg Hb.
    rewrite brightness_test by (by eapply valid_lookup).
    rewrite <- Rule_bright_sum. apply Rule_bright_mean. }
  split; [by apply shouldInvert_counts_spec|].
  rewrite ratio_gt_0_6_iff, Hs.
  pose proof (bright_le_total data) as Hle. fold brights total in Hle.
  destruct (Z.ltb_spec (3 * total) (5 * brights)); repeat split; try done; lia.
Qed.

(** C5: on a buffer of [N] pixels (4N bytes) the loop of [shouldInvert],
    from offset 0 in steps of 20 bytes, takes ceil(N / 5) samples: the
    least [s] with [N <= 5 * s]. *)
Theorem sampling_stride (data : list Z) (N : nat) :
  length data = (4 * N)%nat -> Z.of_nat (length data) <= U8.max_length ->
  exists s : Z,
    snd (shouldInvert_counts data) = Num.of_int s /\
    Z.of_nat N <= 5 * s < Z.of_nat N + 5 /\
    s = Z.of_nat (length (Rule.sample_offsets (length data))).
Proof.
  intros HN Hlen. exists (Rule.total_count data).
  unfold Rule.total_count, Rule.sample_offsets. rewrite offsets_from_length.
  split; [|split; [dlia|done]].
  unfold shouldInvert_counts, Num.lit_0.
  rewrite (shouldInvert_loop_samples (S (length data)) data 0 (Num.of_int 0) 0);
    rewrite ?Nat.sub_0_r, ?P53_val; unfold U8.max_length in *; try done; dlia.
Qed.

Lemma sampling_stride_witness :
  length [255; 255; 255; 255; 0; 0; 0; 255; 9; 9; 9; 255; 1; 2; 3; 4;
          5; 6; 7; 8; 250; 250; 250; 255] = (4 * 6)%nat /\
  exists s : Z,
    snd (shouldInvert_counts
           [255; 255; 255; 255; 0; 0; 0; 255; 9; 9; 9; 255; 1; 2; 3; 4;
            5; 6; 7; 8; 250; 250; 250; 255]) = Num.of_int s /\
    Z.of_nat 6 <= 5 * s < Z.of_nat 6 + 5 /\
    s = Z.of_nat (length (Rule.sample_offsets (length
           [255; 255; 255; 255; 0; 0; 0; 255; 9; 9; 9; 255; 1; 2; 3; 4;
            5; 6; 7; 8; 250; 250; 250; 255]))).
Proof.
  split; [reflexivity|].
  apply (sampling_stride _ 6); [reflexivity | vm_compute; discriminate].
Defined.

(** C10: on the empty buffer [shouldInvert] takes no sample, divides 0
    by 0, which is NaN, and answers false: NaN is not greater than 0.6. *)
Theorem shouldInvert_empty :
  shouldInvert_counts [] = (Num.of_int 0, Num.of_int 0) /\
  Num.div (Num.of_int 0) (Num.of_int 0) = Num.NaN /\
  Num.gt Num.NaN Num.lit_0_6 = false /\
  shouldInvert [] = false.
Proof. repeat split. Qed.

(** ** Strings *)

Lemma toLowerCase_app (p e : string) :
  Str.toLowerCase (String.append p e)
  = String.append (Str.toLowerCase p) (Str.toLowerCase e).
Proof. induction p as [|c p IH]; simpl; [done|]. by rewrite IH. Qed.

Lemma toLowerCase_length (s : string) :
  String.length (Str.toLowerCase s) = String.length s.
Proof. induction s as [|c s IH]; simpl; [done|]. by rewrite IH. Qed.

Lemma append_length (p e : string) :
  String.length (String.append p e) = (String.length p + String.length e)%nat.
Proof. induction p as [|c p IH]; simpl; [done|]. by rewrite IH. Qed.

Lemma substring_all (s : string) : substring 0 (String.length s) s = s.
Proof. induction s as [|c s IH]; simpl; [done|]. by rewrite IH. Qed.

Lemma substring_append_skip (p e : string) (m : nat) :
  substring (String.length p) m (String.append p e) = substring 0 m e.
Proof. induction p as [|c p IH]; simpl; [done|]. exact IH. Qed.

Lemma endsWith_append (p e : string) : Str.endsWith (String.append p e) e = true.
Proof.
  unfold Str.endsWith. rewrite append_length.
  destruct (Nat.leb_spec (String.length e) (String.length p + String.length e)); [|lia].
  replace (String.length p + String.length e - String.length e)%nat
    with (String.length p) by lia.
  rewrite substring_append_skip, substring_all. apply String.eqb_refl.
Qed.

Lemma gif_extension_endsWith (s : string) :
  gif_extension s -> Str.endsWith (Str.toLowerCase s) ".gif" = true.
Proof.
  intros (p & e & -> & He). rewrite toLowerCase_app, He. apply endsWith_append.
Qed.

(** ** The paths of [processImage] *)

Lemma processImage_small (br : browser) (img : image) :
  naturalWidth img < 120 \/ naturalHeight img < 120 ->
  processImage br img = (marked img, [Log "Skipping small image:" (src img)]).
Proof.
  intros H. unfold processImage. cbn [set_dataset naturalWidth naturalHeight src].
  destruct (Z.ltb_spec (naturalWidth img) 120), (Z.ltb_spec (naturalHeight img) 120);
    cbn [orb]; try done; lia.
Qed.

Lemma processImage_gif (br : browser) (img : image) :
  120 <= naturalWidth img -> 120 <= naturalHeight img ->
  Str.endsWith (Str.toLowerCase (src img)) ".gif" = true ->
  processImage br img = (marked img, [Log "Skipping GIF:" (src img)]).
Proof.
  intros Hw Hh Hg. unfold processImage. cbn [set_dataset naturalWidth naturalHeight src].
  destruct (Z.ltb_spec (naturalWidth img) 120), (Z.ltb_spec (naturalHeight img) 120);
    cbn [orb]; try lia.
  by rewrite Hg.
Qed.

(** Past the eligibility filter, [processImage] is its canvas path. *)
Lemma processImage_eligible (br : browser) (img : image) :
  eligible img ->
  processImage br img =
  if negb (has_2d_context br) then (marked img, [CreateCanvas; GetContext])
  else if draw_blocked br then
    (fst (applyCssFallback (marked img)),
     [CreateCanvas; GetContext; DrawImage;
      Log "Canvas draw blocked (CORS), using CSS fallback:" (src img);
      Call FApplyCssFallback; Log "CSS fallback applied:" (src img)])
  else if read_blocked br then
    (fst (applyCssFallback (marked img)),
     [CreateCanvas; GetContext; DrawImage; GetImageData;
      Log "Canvas read blocked (tainted), using CSS fallback:" (src img);
      Call FApplyCssFallback; Log "CSS fallback applied:" (src img)])
  else if negb (shouldInvert (rendered br)) then
    (marked img,
     [CreateCanvas; GetContext; DrawImage; GetImageData; Call FShouldInvert;
      Log "Image does not meet inversion criteria:" (src img)])
  else
    (set_src (marked img) (toDataURL br (inverted_canvas br img)),
     [CreateCanvas; GetContext; DrawImage; GetImageData; Call FShouldInvert;
      Call FInvertImage; PutImageData; ToDataURL;
      Log "Image inverted via canvas:" (toDataURL br (inverted_canvas br img))]).
Proof.
  intros (Hw & Hh & Hg). unfold processImage.
  cbn [set_dataset naturalWidth naturalHeight src].
  destruct (Z.ltb_spec (naturalWidth img) 120), (Z.ltb_spec (naturalHeight img) 120);
    cbn [orb]; try lia.
  rewrite Hg.
  destruct (has_2d_context br); cbn [negb]; [|done].
  destruct (draw_blocked br); [done|].
  destruct (read_blocked br); [done|].
  cbn [cv_bitmap].
  destruct (shouldInvert (rendered br)); cbn [negb]; done.
Qed.

(** ** Sample buffers *)

Lemma uniform_pixels_length (n : nat) (v : Z) :
  length (uniform_pixels n v) = (4 * n)%nat.
Proof.
  induction n as [|n IH]; [done|].
  cbn [uniform_pixels length]. rewrite IH. lia.
Qed.

Lemma uniform_pixels_lookup (n : nat) (v : Z) (j : nat) :
  (j < 4 * n)%nat ->
  uniform_pixels n v !! j = Some (if (j mod 4 =? 3)%nat then 255 else v).
Proof.
  revert j. induction n as [|n IH]; intros j Hj; [lia|].
  cbn [uniform_pixels].
  destruct j as [|[|[|[|j]]]]; try reflexivity.
  change ((v :: v :: v :: 255 :: uniform_pixels n v) !! S (S (S (S j))))
    with (uniform_pixels n v !! j).
  rewrite IH by lia. do 2 f_equal.
  destruct (Nat.eqb_spec (j mod 4) 3), (Nat.eqb_spec (S (S (S (S j))) mod 4) 3);
    try done; dlia.
Qed.

Lemma uniform_pixels_valid (n : nat) (v : Z) :
  0 <= v <= 255 -> U8.valid (uniform_pixels n v).
Proof.
  intros Hv. unfold U8.valid.
  induction n as [|n IH]; cbn [uniform_pixels]; [constructor|].
  repeat (constructor; [lia|]). exact IH.
Qed.

Lemma striped_pixels_length (n k : nat) :
  (k <= n)%nat -> length (striped_pixels n k) = (20 * n)%nat.
Proof.
  intros Hk. unfold striped_pixels. rewrite length_app, !uniform_pixels_length. lia.
Qed.

Lemma striped_pixels_valid (n k : nat) : U8.valid (striped_pixels n k).
Proof.
  unfold striped_pixels, U8.valid. apply Forall_app.
  split; apply uniform_pixels_valid; lia.
Qed.

(** The [j]-th sample of a striped buffer is bright exactly when it is
    one of the first [k]. *)
Lemma striped_pixels_bright_at (n k j : nat) :
  (k <= n)%nat -> (j < n)%nat ->
  Rule.bright_at (striped_pixels n k) (20 * j) = (j <? k)%nat.
Proof.
  intros Hk Hj. unfold Rule.bright_at, striped_pixels.
  destruct (Nat.ltb_spec j k) as [Hlt|Hge].
  - rewrite !lookup_app_l by (rewrite uniform_pixels_length; lia).
    rewrite !uniform_pixels_lookup by lia.
    replace ((20 * j) mod 4 =? 3)%nat with false by (symmetry; apply Nat.eqb_neq; dlia).
    replace ((20 * j + 1) mod 4 =? 3)%nat with false by (symmetry; apply Nat.eqb_neq; dlia).
    replace ((20 * j + 2) mod 4 =? 3)%nat with false by (symmetry; apply Nat.eqb_neq; dlia).
    by rewrite Rule_bright_sum.
  - rewrite !lookup_app_r by (rewrite uniform_pixels_length; lia).
    rewrite !uniform_pixels_length, !uniform_pixels_lookup by lia.
    replace ((20 * j - 4 * (5 * k)) mod 4 =? 3)%nat with false
      by (symmetry; apply Nat.eqb_neq; dlia).
    replace ((20 * j + 1 - 4 * (5 * k)) mod 4 =? 3)%nat with false
      by (symmetry; apply Nat.eqb_neq; dlia).
    replace ((20 * j + 2 - 4 * (5 * k)) mod 4 =? 3)%nat with false
      by (symmetry; apply Nat.eqb_neq; dlia).
    by rewrite Rule_bright_sum.
Qed.

Lemma offsets_from_lookup (i n j : nat) :
  (j < n)%nat -> Rule.offsets_from i n !! j = Some (i + 20 * j)%nat.
Proof.
  revert i j. induction n as [|n IH]; intros i j Hj; [lia|].
  destruct j as [|j]; cbn [Rule.offsets_from].
  - simpl. f_equal. lia.
  - simpl. rewrite IH by lia. f_equal. lia.
Qed.

(** Counting a predicate that holds on the first [k] elements only. *)
Lemma filter_prefix_length {A : Type} (f : A -> bool) (l : list A) (k : nat) :
  (forall j x, l !! j = Some x -> f x = (j <? k)%nat) ->
  length (List.filter f l) = Nat.min k (length l).
Proof.
  revert k. induction l as [|x l IH]; intros k H; [simpl; lia|].
  cbn [List.filter]. rewrite (H 0%nat x eq_refl).
  destruct k as [|k].
  - cbn [Nat.ltb Nat.leb]. rewrite (IH 0%nat); [simpl; lia|].
    intros j y Hy. rewrite (H (S j) y Hy). done.
  - cbn [Nat.ltb Nat.leb length]. rewrite (IH k); [simpl; lia|].
    intros j y Hy. rewrite (H (S j) y Hy). done.
Qed.

Lemma striped_pixels_counts (n k : nat) :
  (k <= n)%nat ->
  Rule.bright_count (striped_pixels n k) = Z.of_nat k /\
  Rule.total_count (striped_pixels n k) = Z.of_nat n.
Proof.
  intros Hk. unfold Rule.bright_count, Rule.total_count, Rule.sample_offsets.
  rewrite striped_pixels_length by done.
  replace ((20 * n + 19) / 20)%nat with n by dlia.
  rewrite offsets_from_length. split; [|done].
  rewrite (filter_prefix_length _ _ k).
  - rewrite offsets_from_length. lia.
  - intros j x Hx.
    assert (Hj : (j < n)%nat).
    { apply lookup_lt_Some in Hx. by rewrite offsets_from_length in Hx. }
    rewrite offsets_from_lookup in Hx by done. injection Hx as <-.
    by apply striped_pixels_bright_at.
Qed.

(** The verdict on a striped buffer of [n] samples, [k] of them bright. *)
Lemma shouldInvert_striped (n k : nat) :
  (k <= n)%nat -> 20 * Z.of_nat n <= U8.max_length ->
  shouldInvert (striped_pixels n k) = (3 * Z.of_nat n <? 5 * Z.of_nat k).
Proof.
  intros Hk Hn. rewrite shouldInvert_spec.
  - destruct (striped_pixels_counts n k Hk) as [-> ->]. done.
  - apply striped_pixels_valid.
  - rewrite striped_pixels_length by done. lia.
Qed.

(** The boundary, evaluated on the code: of 100 samples, 61 bright ones
    invert, 60 do not; 90 do, 30 do not. *)
Example shouldInvert_61_of_100 : shouldInvert (striped_pixels 100 61) = true.
Proof. vm_compute. reflexivity. Qed.

Example shouldInvert_60_of_100 : shouldInvert (striped_pixels 100 60) = false.
Proof. vm_compute. reflexivity. Qed.

Example shouldInvert_90_of_100 : shouldInvert (striped_pixels 100 90) = true.
Proof. vm_compute. reflexivity. Qed.

Example shouldInvert_30_of_100 : shouldInvert (striped_pixels 100 30) = false.
Proof. vm_compute. reflexivity. Qed.


(** A buffer of 5 samples, 4 of them bright. *)
Lemma shouldInvert_threshold_witness :
  U8.valid (striped_pixels 5 4) /\
  Z.of_nat (length (striped_pixels 5 4)) <= U8.max_length /\
  shouldInvert_counts (striped_pixels 5 4) = (Num.of_int 4, Num.of_int 5) /\
  shouldInvert (striped_pixels 5 4) = true.
Proof.
  assert (Hv : U8.valid (striped_pixels 5 4)) by apply striped_pixels_valid.
  assert (Hl : Z.of_nat (length (striped_pixels 5 4)) <= U8.max_length)
    by (vm_compute; discriminate).
  split; [exact Hv|]. split; [exact Hl|].
  destruct (shouldInvert_threshold (striped_pixels 5 4) Hv Hl) as (_ & Hc & _ & H61 & _).
  split.
  - exact Hc.
  - apply H61; vm_compute; congruence.
Defined.

(** ** Outcomes of the pipeline *)

Lemma marked_processed (img : image) :
  dataset (marked img) !! "processed" = Some "true".
Proof. unfold marked, set_dataset. cbn [dataset]. apply lookup_insert_eq. Qed.

(** A marked element is skipped by the scanner. *)
Lemma scanImage_marked (env : image -> browser) (img : image) :
  dataset img !! "processed" = Some "true" -> scanImage env img = (img, []).
Proof. intros H. unfold scanImage. by destruct (decide _). Qed.

(** C4: an image less than 120 wide or less than 120 high is marked and
    nothing else happens: no canvas is created, drawn or read, source and
    style stay as they are; a later scan passes over it. *)
Theorem small_image_skipped (br : browser) (env : image -> browser) (img : image) :
  naturalWidth img < 120 \/ naturalHeight img < 120 ->
  processImage br img = (marked img, [Log "Skipping small image:" (src img)]) /\
  dataset (marked img) !! "processed" = Some "true" /\
  src (marked img) = src img /\ style (marked img) = style img /\
  scanImage env (marked img) = (marked img, []) /\
  scanImages env [marked img] = ([marked img], []).
Proof.
  intros H. split; [by apply processImage_small|].
  split; [apply marked_processed|]. split; [done|]. split; [done|].
  pose proof (scanImage_marked env (marked img) (marked_processed img)) as Hs.
  split; [done|]. cbn [scanImages]. by rewrite Hs.
Qed.

Lemma small_image_skipped_witness :
  (naturalWidth (page_image 50 50 "https://example.org/icon.png") < 120 \/
   naturalHeight (page_image 50 50 "https://example.org/icon.png") < 120) /\
  processImage (sample_browser true false false (uniform_pixels 2500 255))
               (page_image 50 50 "https://example.org/icon.png")
  = (marked (page_image 50 50 "https://example.org/icon.png"),
     [Log "Skipping small image:" "https://example.org/icon.png"]).
Proof.
  assert (H : naturalWidth (page_image 50 50 "https://example.org/icon.png") < 120 \/
              naturalHeight (page_image 50 50 "https://example.org/icon.png") < 120)
    by (left; reflexivity).
  split; [exact H|].
  exact (proj1 (small_image_skipped
    (sample_browser true false false (uniform_pixels 2500 255))
    (fun _ => sample_browser true false false []) _ H)).
Defined.

(** C8: an image whose source ends in [.gif], in any letter case, is
    marked and left alone: no canvas is created, nothing is drawn. *)
Theorem gif_not_rendered (br : browser) (img : image) :
  gif_extension (src img) ->
  fst (processImage br img) = marked img /\
  (snd (processImage br img) = [Log "Skipping small image:" (src img)] \/
   snd (processImage br img) = [Log "Skipping GIF:" (src img)]) /\
  (CreateCanvas ∉ snd (processImage br img)) /\
  (GetContext ∉ snd (processImage br img)) /\
  (DrawImage ∉ snd (processImage br img)).
Proof.
  intros Hg. apply gif_extension_endsWith in Hg.
  destruct (Z_lt_le_dec (naturalWidth img) 120) as [Hw|Hw].
  { rewrite processImage_small by (by left). cbn [fst snd].
    repeat split; [by left | trace_not_in ..]. }
  destruct (Z_lt_le_dec (naturalHeight img) 120) as [Hh|Hh].
  { rewrite processImage_small by (by right). cbn [fst snd].
    repeat split; [by left | trace_not_in ..]. }
  rewrite processImage_gif by done. cbn [fst snd].
  repeat split; [by right | trace_not_in ..].
Qed.

Lemma gif_not_rendered_witness :
  gif_extension (src (page_image 300 300 "https://example.org/anim.GiF")) /\
  snd (processImage (sample_browser true false false [])
                    (page_image 300 300 "https://example.org/anim.GiF"))
  = [Log "Skipping GIF:" "https://example.org/anim.GiF"].
Proof.
  assert (H : gif_extension (src (page_image 300 300 "https://example.org/anim.GiF")))
    by (exists "https://example.org/anim", ".GiF"; split; reflexivity).
  split; [exact H|].
  destruct (gif_not_rendered (sample_browser true false false [])
              (page_image 300 300 "https://example.org/anim.GiF") H)
    as (_ & [Hs|Hs] & _).
  - discriminate Hs.
  - exact Hs.
Defined.

(** C9: when no 2D context is handed out, processing of an eligible
    image stops there: no fallback, no classification, and only the
    marker changes on the element. *)
Theorem no_context_aborts (br : browser) (img : image) :
  eligible img -> has_2d_context br = false ->
  processImage br img = (marked img, [CreateCanvas; GetContext]) /\
  (Call FApplyCssFallback ∉ snd (processImage br img)) /\
  (Call FShouldInvert ∉ snd (processImage br img)) /\
  src (marked img) = src img /\ style (marked img) = style img.
Proof.
  intros He Hc. rewrite processImage_eligible by done. rewrite Hc. cbn [negb snd].
  repeat split; trace_not_in.
Qed.

Lemma no_context_aborts_witness :
  eligible (page_image 300 300 "https://example.org/page.png") /\
  has_2d_context (sample_browser false false false []) = false /\
  processImage (sample_browser false false false [])
               (page_image 300 300 "https://example.org/page.png")
  = (marked (page_image 300 300 "https://example.org/page.png"),
     [CreateCanvas; GetContext]).
Proof.
  assert (He : eligible (page_image 300 300 "https://example.org/page.png"))
    by (repeat split; vm_compute; congruence).
  split; [exact He|]. split; [reflexivity|].
  exact (proj1 (no_context_aborts (sample_browser false false false [])
                  (page_image 300 300 "https://example.org/page.png") He eq_refl)).
Defined.

Lemma applyCssFallback_spec (img : image) :
  applyCssFallback img =
  (style_setProperty
     (style_setProperty img "filter" fallback_filter "important")
     "background-color" "black" EmptyString,
   [Log "CSS fallback applied:" (src img)]).
Proof. reflexivity. Qed.

(** C3: when [drawImage] or [getImageData] throws on an eligible image,
    [applyCssFallback] runs: the style property [filter] becomes
    [invert(1) hue-rotate(180deg) brightness(1.1) contrast(1.1)] at
    priority [important] and [background-color] becomes [black]; the
    source is not touched, only the marker and the style change, and
    [shouldInvert] is never called. *)
Theorem cross_origin_fallback (br : browser) (img : image) :
  eligible img -> has_2d_context br = true ->
  draw_blocked br = true \/ read_blocked br = true ->
  exists (img' : image) (tr : list event),
    processImage br img = (img', tr) /\
    img' = fst (applyCssFallback (marked img)) /\
    style img' =
      <["background-color" := ("black", EmptyString)]>
        (<["filter" :=
             ("invert(1) hue-rotate(180deg) brightness(1.1) contrast(1.1)",
              "important")]> (style img)) /\
    style img' !! "filter" =
      Some ("invert(1) hue-rotate(180deg) brightness(1.1) contrast(1.1)",
            "important") /\
    style img' !! "background-color" = Some ("black", EmptyString) /\
    src img' = src img /\
    dataset img' = dataset (marked img) /\
    (Call FApplyCssFallback ∈ tr) /\
    (Call FShouldInvert ∉ tr) /\ (Call FInvertImage ∉ tr) /\
    (PutImageData ∉ tr) /\ (ToDataURL ∉ tr).
Proof.
  intros He Hc Hb. rewrite processImage_eligible by done. rewrite Hc. cbn [negb].
  assert (Hf : style (fst (applyCssFallback (marked img))) !! "filter" =
               Some ("invert(1) hue-rotate(180deg) brightness(1.1) contrast(1.1)",
                     "important")).
  { cbn [applyCssFallback style_setProperty fst style].
    rewrite lookup_insert_ne by done. apply lookup_insert_eq. }
  assert (Hk : style (fst (applyCssFallback (marked img))) !! "background-color" =
               Some ("black", EmptyString)).
  { cbn [applyCssFallback style_setProperty fst style]. apply lookup_insert_eq. }
  destruct (draw_blocked br) eqn:Hd.
  - eexists _, _. split; [reflexivity|]. split; [reflexivity|].
    split; [reflexivity|]. split; [exact Hf|]. split; [exact Hk|].
    repeat split; first [done | solve [trace_in] | trace_not_in].
  - destruct Hb as [Hb|Hb]; [discriminate|]. rewrite Hb.
    eexists _, _. split; [reflexivity|]. split; [reflexivity|].
    split; [reflexivity|]. split; [exact Hf|]. split; [exact Hk|].
    repeat split; first [done | solve [trace_in] | trace_not_in].
Qed.

Lemma cross_origin_fallback_witness :
  let br := sample_browser true false true scenario_A_pixels in
  let img := page_image 300 300 "https://cdn.example.net/shot.png" in
  eligible img /\ has_2d_context br = true /\
  (draw_blocked br = true \/ read_blocked br = true) /\
  exists (img' : image) (tr : list event),
    processImage br img = (img', tr) /\
    img' = fst (applyCssFallback (marked img)) /\
    style img' =
      <["background-color" := ("black", EmptyString)]>
        (<["filter" :=
             ("invert(1) hue-rotate(180deg) brightness(1.1) contrast(1.1)",
              "important")]> (style img)) /\
    style img' !! "filter" =
      Some ("invert(1) hue-rotate(180deg) brightness(1.1) contrast(1.1)",
            "important") /\
    style img' !! "background-color" = Some ("black", EmptyString) /\
    src img' = src img /\
    dataset img' = dataset (marked img) /\
    (Call FApplyCssFallback ∈ tr) /\
    (Call FShouldInvert ∉ tr) /\ (Call FInvertImage ∉ tr) /\
    (PutImageData ∉ tr) /\ (ToDataURL ∉ tr).
Proof.
  intros br img.
  assert (He : eligible img) by (repeat split; vm_compute; congruence).
  split; [exact He|]. split; [reflexivity|]. split; [right; reflexivity|].
  exact (cross_origin_fallback br img He eq_refl (or_intror eq_refl)).
Defined.

(** C6: an eligible image whose pixels can be read and on which
    [shouldInvert] answers true ends with every red, green and blue byte
    of its buffer inverted, the buffer put back on the canvas, and its
    source replaced by the data URL of that canvas; it is marked. *)
Theorem bright_image_inverted (br : browser) (img : image) :
  eligible img -> has_2d_context br = true ->
  draw_blocked br = false -> read_blocked br = false ->
  U8.valid (rendered br) -> shouldInvert (rendered br) = true ->
  let img' := set_src (marked img) (toDataURL br (inverted_canvas br img)) in
  processImage br img =
    (img', [CreateCanvas; GetContext; DrawImage; GetImageData; Call FShouldInvert;
            Call FInvertImage; PutImageData; ToDataURL;
            Log "Image inverted via canvas:" (src img')]) /\
  src img' = toDataURL br (inverted_canvas br img) /\
  (forall j v, (j mod 4 <> 3)%nat -> rendered br !! j = Some v ->
     cv_bitmap (inverted_canvas br img) !! j = Some (255 - v)) /\
  (forall j, (j mod 4 = 3)%nat ->
     cv_bitmap (inverted_canvas br img) !! j = rendered br !! j) /\
  length (cv_bitmap (inverted_canvas br img)) = length (rendered br) /\
  dataset img' !! "processed" = Some "true" /\
  style img' = style img.
Proof.
  intros He Hc Hd Hr Hv Hs img'. rewrite processImage_eligible by done.
  rewrite Hc, Hd, Hr, Hs. cbn [negb inverted_canvas cv_bitmap].
  repeat split.
  - intros j v Hj Hjv. by apply invertPixels_rgb.
  - intros j Hj. by apply invertPixels_alpha.
  - apply invertPixels_length.
  - apply marked_processed.
Qed.

Lemma scenario_A_shouldInvert : shouldInvert scenario_A_pixels = true.
Proof.
  unfold scenario_A_pixels. rewrite shouldInvert_striped.
  - apply Z.ltb_lt. lia.
  - lia.
  - unfold U8.max_length. lia.
Qed.

Lemma scenario_B_shouldInvert : shouldInvert scenario_B_pixels = false.
Proof.
  unfold scenario_B_pixels. rewrite shouldInvert_striped.
  - apply Z.ltb_ge. lia.
  - lia.
  - unfold U8.max_length. lia.
Qed.

Lemma scenario_pixels_length :
  Z.of_nat (length scenario_A_pixels) = 4 * 300 * 300 /\
  Z.of_nat (length scenario_B_pixels) = 4 * 300 * 300.
Proof.
  unfold scenario_A_pixels, scenario_B_pixels.
  rewrite !striped_pixels_length by lia. lia.
Qed.

Lemma bright_image_inverted_witness :
  let br := sample_browser true false false scenario_A_pixels in
  let img := page_image 300 300 "https://example.org/page.png" in
  eligible img /\ U8.valid (rendered br) /\ shouldInvert (rendered br) = true /\
  let img' := set_src (marked img) (toDataURL br (inverted_canvas br img)) in
  processImage br img =
    (img', [CreateCanvas; GetContext; DrawImage; GetImageData; Call FShouldInvert;
            Call FInvertImage; PutImageData; ToDataURL;
            Log "Image inverted via canvas:" (src img')]) /\
  src img' = toDataURL br (inverted_canvas br img) /\
  (forall j v, (j mod 4 <> 3)%nat -> rendered br !! j = Some v ->
     cv_bitmap (inverted_canvas br img) !! j = Some (255 - v)) /\
  (forall j, (j mod 4 = 3)%nat ->
     cv_bitmap (inverted_canvas br img) !! j = rendered br !! j) /\
  length (cv_bitmap (inverted_canvas br img)) = length (rendered br) /\
  dataset img' !! "processed" = Some "true" /\
  style img' = style img.
Proof.
  intros br img.
  assert (He : eligible img) by (repeat split; vm_compute; congruence).
  assert (Hv : U8.valid (rendered br)) by apply striped_pixels_valid.
  assert (Hs : shouldInvert (rendered br) = true) by exact scenario_A_shouldInvert.
  split; [exact He|]. split; [exact Hv|]. split; [exact Hs|].
  exact (bright_image_inverted br img He eq_refl eq_refl eq_refl Hv Hs).
Defined.

(** C7: an eligible image whose pixels can be read and on which
    [shouldInvert] answers false is left as the page rendered it: source
    and style are unchanged, only the marker is set. *)
Theorem dim_image_untouched (br : browser) (img : image) :
  eligible img -> has_2d_context br = true ->
  draw_blocked br = false -> read_blocked br = false ->
  shouldInvert (rendered br) = false ->
  processImage br img =
    (marked img,
     [CreateCanvas; GetContext; DrawImage; GetImageData; Call FShouldInvert;
      Log "Image does not meet inversion criteria:" (src img)]) /\
  src (marked img) = src img /\ style (marked img) = style img /\
  dataset (marked img) !! "processed" = Some "true" /\
  (Call FInvertImage ∉ snd (processImage br img)) /\
  (Call FApplyCssFallback ∉ snd (processImage br img)) /\
  (PutImageData ∉ snd (processImage br img)).
Proof.
  intros He Hc Hd Hr Hs. rewrite processImage_eligible by done.
  rewrite Hc, Hd, Hr, Hs. cbn [negb snd].
  repeat split; first [done | apply marked_processed | trace_not_in].
Qed.

Lemma dim_image_untouched_witness :
  let br := sample_browser true false false scenario_B_pixels in
  let img := page_image 300 300 "https://example.org/photo.jpg" in
  eligible img /\ shouldInvert (rendered br) = false /\
  processImage br img =
    (marked img,
     [CreateCanvas; GetContext; DrawImage; GetImageData; Call FShouldInvert;
      Log "Image does not meet inversion criteria:" (src img)]).
Proof.
  intros br img.
  assert (He : eligible img) by (repeat split; vm_compute; congruence).
  assert (Hs : shouldInvert (rendered br) = false) by exact scenario_B_shouldInvert.
  split; [exact He|]. split; [exact Hs|].
  exact (proj1 (dim_image_untouched br img He eq_refl eq_refl eq_refl Hs)).
Defined.

(** * Further properties of the script *)

(** ** The paths of [processImage], as one case analysis *)

Lemma processImage_cases (br : browser) (img : image) :
  ((naturalWidth img < 120 \/ naturalHeight img < 120) /\
   processImage br img = (marked img, [Log "Skipping small image:" (src img)])) \/
  (120 <= naturalWidth img /\ 120 <= naturalHeight img /\
   Str.endsWith (Str.toLowerCase (src img)) ".gif" = true /\
   processImage br img = (marked img, [Log "Skipping GIF:" (src img)])) \/
  (eligible img /\ has_2d_context br = false /\
   processImage br img = (marked img, [CreateCanvas; GetContext])) \/
  (eligible img /\ has_2d_context br = true /\ draw_blocked br = true /\
   processImage br img =
     (fst (applyCssFallback (marked img)),
      [CreateCanvas; GetContext; DrawImage;
       Log "Canvas draw blocked (CORS), using CSS fallback:" (src img);
       Call FApplyCssFallback; Log "CSS fallback applied:" (src img)])) \/
  (eligible img /\ has_2d_context br = true /\ draw_blocked br = false /\
   read_blocked br = true /\
   processImage br img =
     (fst (applyCssFallback (marked img)),
      [CreateCanvas; GetContext; DrawImage; GetImageData;
       Log "Canvas read blocked (tainted), using CSS fallback:" (src img);
       Call FApplyCssFallback; Log "CSS fallback applied:" (src img)])) \/
  (eligible img /\ has_2d_context br = true /\ draw_blocked br = false /\
   read_blocked br = false /\ shouldInvert (rendered br) = false /\
   processImage br img =
     (marked img,
      [CreateCanvas; GetContext; DrawImage; GetImageData; Call FShouldInvert;
       Log "Image does not meet inversion criteria:" (src img)])) \/
  (eligible img /\ has_2d_context br = true /\ draw_blocked br = false /\
   read_blocked br = false /\ shouldInvert (rendered br) = true /\
   processImage br img =
     (set_src (marked img) (toDataURL br (inverted_canvas br img)),
      [CreateCanvas; GetContext; DrawImage; GetImageData; Call FShouldInvert;
       Call FInvertImage; PutImageData; ToDataURL;
       Log "Image inverted via canvas:" (toDataURL br (inverted_canvas br img))])).
Proof.
  destruct (Z_lt_le_dec (naturalWidth img) 120) as [Hw|Hw].
  { left. split; [by left|]. apply processImage_small. by left. }
  destruct (Z_lt_le_dec (naturalHeight img) 120) as [Hh|Hh].
  { left. split; [by right|]. apply processImage_small. by right. }
  destruct (Str.endsWith (Str.toLowerCase (src img)) ".gif") eqn:Hg.
  { right; left. repeat split; try done. by apply processImage_gif. }
  assert (He : eligible img) by done.
  rewrite (processImage_eligible br img He).
  destruct (has_2d_context br); cbn [negb]; [|do 2 right; left; done].
  destruct (draw_blocked br); [do 3 right; left; done|].
  destruct (read_blocked br); [do 4 right; left; done|].
  destruct (shouldInvert (rendered br)); cbn [negb].
  - do 6 right. done.
  - do 5 right; left. done.
Qed.

Lemma marked_marked (img : image) : marked (marked img) = marked img.
Proof.
  unfold marked, set_dataset. cbn [dataset naturalWidth naturalHeight src complete onload style].
  by rewrite insert_insert_eq.
Qed.

Lemma applyCssFallback_style (img : image) :
  style (fst (applyCssFallback img)) = fallback_style (style img).
Proof. reflexivity. Qed.

Lemma fallback_style_idempotent (s : gmap string (string * string)) :
  fallback_style (fallback_style s) = fallback_style s.
Proof.
  unfold fallback_style. apply map_eq. intros k.
  rewrite !lookup_insert. repeat case_decide; done.
Qed.

(** ** What [processImage] keeps *)

(** X1: whatever the browser answers, [processImage] leaves the element
    marked, and changes neither its natural size, its [complete] flag,
    its [onload] handler, nor any other entry of its dataset. *)
Theorem processImage_keeps_element (br : browser) (img : image) :
  let img' := fst (processImage br img) in
  dataset img' = <["processed" := "true"]> (dataset img) /\
  dataset img' !! "processed" = Some "true" /\
  (forall k, k <> "processed" -> dataset img' !! k = dataset img !! k) /\
  naturalWidth img' = naturalWidth img /\
  naturalHeight img' = naturalHeight img /\
  complete img' = complete img /\
  onload img' = onload img.
Proof.
  intros img'.
  assert (Hd : dataset img' = <["processed" := "true"]> (dataset img) /\
               naturalWidth img' = naturalWidth img /\
               naturalHeight img' = naturalHeight img /\
               complete img' = complete img /\ onload img' = onload img).
  { unfold img'.
    destruct (processImage_cases br img)
      as [(_ & ->)|[(_ & _ & _ & ->)|[(_ & _ & ->)|[(_ & _ & _ & ->)|
          [(_ & _ & _ & _ & ->)|[(_ & _ & _ & _ & _ & ->)|(_ & _ & _ & _ & _ & ->)]]]]]];
      done. }
  destruct Hd as (Hd & Hw & Hh & Hc & Ho).
  repeat split; try done.
  - rewrite Hd. apply lookup_insert_eq.
  - intros k Hk. rewrite Hd. by apply lookup_insert_ne.
Qed.

(** X2: [processImage] does not look at the marker: on an element that
    is already marked it does all that it does on an unmarked one. *)
Theorem processImage_ignores_marker (br : browser) (img : image) :
  processImage br (marked img) = processImage br img.
Proof.
  unfold processImage. fold (marked (marked img)) (marked img).
  by rewrite marked_marked.
Qed.

(** ** Which call happens when *)

(** X3: a canvas is created exactly for the images that are at least 120
    wide and 120 high and whose source does not end in [.gif]; 120 itself
    passes. *)
Theorem canvas_iff_eligible (br : browser) (img : image) :
  CreateCanvas ∈ snd (processImage br img) <->
  120 <= naturalWidth img /\ 120 <= naturalHeight img /\
  Str.endsWith (Str.toLowerCase (src img)) ".gif" = false.
Proof.
  fold (eligible img).
  destruct (processImage_cases br img)
    as [(H & ->)|[(Hw & Hh & Hg & ->)|[(He & _ & ->)|[(He & _ & _ & ->)|
        [(He & _ & _ & _ & ->)|[(He & _ & _ & _ & _ & ->)|(He & _ & _ & _ & _ & ->)]]]]]];
    cbn [snd]; (split; [intros Hin | intros Hel]); try done; try trace_in.
  - exfalso. revert Hin. trace_not_in.
  - destruct Hel as (? & ? & ?). lia.
  - exfalso. revert Hin. trace_not_in.
  - destruct Hel as (? & ? & ?). congruence.
Qed.

(** X4: which canvas call and which helper runs is decided by the
    eligibility of the image and the answers of the browser, in this
    order: [drawImage] needs a context, [getImageData] a successful draw,
    [shouldInvert] a successful read, [applyCssFallback] a blocked draw
    or read, and [putImageData] and [toDataURL] a verdict "invert". *)
Theorem call_table (br : browser) (img : image) :
  (DrawImage ∈ snd (processImage br img) <->
     eligible img /\ has_2d_context br = true) /\
  (GetImageData ∈ snd (processImage br img) <->
     eligible img /\ has_2d_context br = true /\ draw_blocked br = false) /\
  (Call FShouldInvert ∈ snd (processImage br img) <->
     eligible img /\ has_2d_context br = true /\ draw_blocked br = false /\
     read_blocked br = false) /\
  (Call FApplyCssFallback ∈ snd (processImage br img) <->
     eligible img /\ has_2d_context br = true /\
     (draw_blocked br = true \/ read_blocked br = true)) /\
  (PutImageData ∈ snd (processImage br img) <->
     eligible img /\ has_2d_context br = true /\ draw_blocked br = false /\
     read_blocked br = false /\ shouldInvert (rendered br) = true) /\
  (ToDataURL ∈ snd (processImage br img) <->
     eligible img /\ has_2d_context br = true /\ draw_blocked br = false /\
     read_blocked br = false /\ shouldInvert (rendered br) = true).
Proof.
  split_paths (processImage_cases br img); cbn [snd];
    (split; [|split; [|split; [|split; [|split]]]]); path_iff.
Qed.

(** X5: the missing-context abort is the only silent path: nothing is
    logged exactly when the image is eligible and no 2D context is
    handed out. *)
Theorem silent_only_without_context (br : browser) (img : image) :
  (forall msg arg, Log msg arg ∉ snd (processImage br img)) <->
  eligible img /\ has_2d_context br = false.
Proof.
  split_paths (processImage_cases br img); cbn [snd]; split.
  all: try (intros Hno; exfalso;
            first [ solve [apply (Hno "Skipping small image:" (src img)); trace_in]
                  | solve [apply (Hno "Skipping GIF:" (src img)); trace_in]
                  | solve [apply (Hno "CSS fallback applied:" (src img)); trace_in]
                  | solve [apply (Hno "Image does not meet inversion criteria:"
                                    (src img)); trace_in]
                  | solve [apply (Hno "Image inverted via canvas:"
                                    (toDataURL br (inverted_canvas br img)));
                           trace_in] ]).
  all: try (intros _; done).
  all: try (intros [Hel Hc']; exfalso; unfold eligible in *; intuition (lia || congruence)).
  intros _ msg arg. trace_not_in.
Qed.

(** ** The three final states of an element *)

(** X6: after [processImage] the element is in exactly one of three
    states: source and style as before; style with the fallback filter
    and source as before (a blocked draw or read); or source replaced by
    the data URL of the inverted canvas and style as before (a verdict
    "invert").  Source and style are never both changed. *)
Theorem three_final_states (br : browser) (img : image) :
  let img' := fst (processImage br img) in
  (src img' = src img /\ style img' = style img /\
   (eligible img /\ has_2d_context br = true ->
    draw_blocked br = false /\ read_blocked br = false /\
    shouldInvert (rendered br) = false)) \/
  (src img' = src img /\ style img' = fallback_style (style img) /\
   eligible img /\ has_2d_context br = true /\
   (draw_blocked br = true \/ read_blocked br = true)) \/
  (style img' = style img /\ src img' = toDataURL br (inverted_canvas br img) /\
   eligible img /\ has_2d_context br = true /\ draw_blocked br = false /\
   read_blocked br = false /\ shouldInvert (rendered br) = true).
Proof.
  intros img'. unfold img'.
  split_paths (processImage_cases br img); cbn [fst].
  - left. split; [done|]. split; [done|].
    intros [(? & ? & ?) _]. lia.
  - left. split; [done|]. split; [done|].
    intros [(? & ? & ?) _]. congruence.
  - left. split; [done|]. split; [done|].
    intros [_ ?]. congruence.
  - right; left. split; [reflexivity|]. split; [reflexivity|].
    split; [done|]. split; [done|]. by left.
  - right; left. split; [reflexivity|]. split; [reflexivity|].
    split; [done|]. split; [done|]. by right.
  - left. split; [done|]. split; [done|]. done.
  - right; right. split; [reflexivity|]. split; [reflexivity|]. done.
Qed.

(** ** Running [processImage] again *)

Lemma marked_fallback (img : image) :
  marked (fst (applyCssFallback (marked img))) = fst (applyCssFallback (marked img)).
Proof.
  unfold marked, applyCssFallback, style_setProperty, set_dataset.
  cbn [fst dataset naturalWidth naturalHeight src complete onload style].
  by rewrite insert_insert_eq.
Qed.

Lemma fallback_fallback (img : image) :
  fst (applyCssFallback (marked (fst (applyCssFallback (marked img)))))
  = fst (applyCssFallback (marked img)).
Proof.
  rewrite marked_fallback.
  unfold marked, applyCssFallback, style_setProperty, set_dataset.
  cbn [fst dataset naturalWidth naturalHeight src complete onload style].
  f_equal. apply fallback_style_idempotent.
Qed.

Lemma marked_set_src (img : image) (u : string) :
  marked (set_src (marked img) u) = set_src (marked img) u.
Proof.
  unfold marked, set_src, set_dataset.
  cbn [dataset naturalWidth naturalHeight src complete onload style].
  by rewrite insert_insert_eq.
Qed.

Lemma set_src_set_src (img : image) (u : string) :
  set_src (marked (set_src (marked img) u)) u = set_src (marked img) u.
Proof. by rewrite marked_set_src. Qed.

(** X7: under the same answers of the browser, a second run of
    [processImage] on the element the first run left gives that element
    again: the marker, the fallback style and the replaced source are
    each written a second time with the same value. *)
Theorem processImage_twice (br : browser) (img : image) :
  fst (processImage br (fst (processImage br img))) = fst (processImage br img).
Proof.
  split_paths (processImage_cases br img); cbn [fst].
  all: match goal with
       | |- fst (processImage ?b ?i) = _ => split_paths (processImage_cases b i)
       end; cbn [fst].
  all: first
    [ solve [apply marked_marked]
    | solve [apply marked_fallback]
    | solve [apply fallback_fallback]
    | solve [apply marked_set_src]
    | solve [apply set_src_set_src]
    | solve [exfalso; unfold eligible in *;
             cbn [marked set_dataset set_src applyCssFallback style_setProperty
                  fst naturalWidth naturalHeight src] in *;
             intuition (lia || congruence)] ].
Qed.

(** ** The scanner *)

Lemma processImage_marks (br : browser) (img : image) :
  dataset (fst (processImage br img)) !! "processed" = Some "true".
Proof.
  split_paths (processImage_cases br img); cbn [fst]; apply lookup_insert_eq.
Qed.

Lemma scanImage_settled (env env' : image -> browser) (img : image) :
  scanImage env' (fst (scanImage env img)) = (fst (scanImage env img), []).
Proof.
  unfold scanImage at 2 3.
  destruct (decide (dataset img !! "processed" = Some "true")) as [Hm|Hm]; cbn [fst].
  - by apply scanImage_marked.
  - destruct (complete img) eqn:Hc; cbn [fst].
    + apply scanImage_marked, processImage_marks.
    + unfold scanImage. cbn [set_onload dataset complete].
      destruct (decide (dataset img !! "processed" = Some "true")); [done|].
      by rewrite Hc.
Qed.

(** X8: a second scan changes nothing and does nothing, whatever the
    browser would answer: every element the first scan processed is
    marked, and every element it left waiting for its load event gets
    the same handler again. *)
Theorem scanImages_twice (env env' : image -> browser) (images : list image) :
  scanImages env' (fst (scanImages env images)) = (fst (scanImages env images), []).
Proof.
  induction images as [|img rest IH]; [done|].
  cbn [scanImages].
  destruct (scanImage env img) as [img1 tr1] eqn:E1.
  destruct (scanImages env rest) as [rest1 tr2] eqn:E2.
  cbn [fst scanImages] in *.
  pose proof (scanImage_settled env env' img) as Hs. rewrite E1 in Hs. cbn [fst] in Hs.
  by rewrite Hs, IH.
Qed.

Lemma scanImages_lookup (env : image -> browser) (images : list image) (i : nat) :
  fst (scanImages env images) !! i = (fun img => fst (scanImage env img)) <$> images !! i.
Proof.
  revert i. induction images as [|img rest IH]; intros i; [done|].
  cbn [scanImages].
  destruct (scanImage env img) as [img1 tr1] eqn:E1.
  destruct (scanImages env rest) as [rest1 tr2] eqn:E2.
  cbn [fst] in *. destruct i as [|i]; cbn; [by rewrite E1|]. apply IH.
Qed.

(** X9: a scan keeps the number and the order of the elements, handles
    each element by itself, and leaves each one either marked or, if it
    had not finished loading, unmarked as it was with [processImage]
    registered as its load handler; nothing is done for a document whose
    images are all marked or still loading. *)
Theorem scanImages_outcome (env : image -> browser) (images : list image) :
  length (fst (scanImages env images)) = length images /\
  (forall i, fst (scanImages env images) !! i
             = (fun img => fst (scanImage env img)) <$> images !! i) /\
  (forall i img img',
     images !! i = Some img -> fst (scanImages env images) !! i = Some img' ->
     dataset img' !! "processed" = Some "true" \/
     (complete img = false /\ img' = set_onload img OnloadProcessImage /\
      dataset img' = dataset img)) /\
  (Forall (fun img => dataset img !! "processed" = Some "true" \/ complete img = false)
          images ->
   snd (scanImages env images) = []).
Proof.
  split; [|split; [|split]].
  - induction images as [|img rest IH]; [done|].
    cbn [scanImages].
    destruct (scanImage env img) as [img1 tr1].
    destruct (scanImages env rest) as [rest1 tr2].
    cbn [fst length] in *. by rewrite IH.
  - apply scanImages_lookup.
  - intros i img img' Hi Hi'.
    rewrite scanImages_lookup, Hi in Hi'. injection Hi' as <-.
    unfold scanImage.
    destruct (decide (dataset img !! "processed" = Some "true")) as [Hm|Hm]; cbn [fst].
    + by left.
    + destruct (complete img) eqn:Hc; cbn [fst].
      * left. apply processImage_marks.
      * right. done.
  - intros Hall. induction Hall as [|img rest Himg Hrest IH]; [done|].
    cbn [scanImages].
    destruct (scanImage env img) as [img1 tr1] eqn:E1.
    destruct (scanImages env rest) as [rest1 tr2] eqn:E2.
    cbn [snd] in *. rewrite IH, app_nil_r.
    unfold scanImage in E1.
    destruct (decide (dataset img !! "processed" = Some "true")) as [Hm|Hm].
    + by injection E1 as <- <-.
    + destruct Himg as [Himg|Himg]; [done|]. rewrite Himg in E1.
      by injection E1 as <- <-.
Qed.

(** ** The transform on the canvas *)



(** ** What the classifier reads *)

Lemma shouldInvert_loop_frame (fuel : nat) (d d' : list Z) (i : nat) (b s : Num.t) :
  length d = length d' -> same_samples d d' -> (i mod 20 = 0)%nat ->
  shouldInvert_loop fuel d i b s = shouldInvert_loop fuel d' i b s.
Proof.
  intros Hlen Hsame. revert i b s.
  induction fuel as [|fuel IH]; intros i b s Hi; [done|].
  cbn [shouldInvert_loop]. rewrite <- Hlen.
  destruct (i <? length d)%nat; [|done].
  destruct (Hsame i Hi) as (Hr & Hg & Hb).
  unfold U8.get. rewrite Hr, Hg, Hb.
  apply IH. dlia.
Qed.

(** X11: the verdict of [shouldInvert] depends on the length of the
    buffer and on the red, green and blue bytes of every fifth pixel
    only: two buffers of one length that agree there get the same
    verdict, whatever their alpha bytes and their other pixels. *)
Theorem shouldInvert_frame (d d' : list Z) :
  length d = length d' -> same_samples d d' ->
  shouldInvert_counts d = shouldInvert_counts d' /\
  shouldInvert d = shouldInvert d'.
Proof.
  intros Hlen Hsame.
  assert (Hc : shouldInvert_counts d = shouldInvert_counts d').
  { unfold shouldInvert_counts. rewrite <- Hlen.
    by apply shouldInvert_loop_frame. }
  split; [done|]. unfold shouldInvert. by rewrite Hc.
Qed.

Lemma shouldInvert_frame_witness :
  length [255; 255; 255; 255; 0; 0; 0; 255; 9; 9; 9; 255; 1; 2; 3; 4;
          5; 6; 7; 8; 250; 250; 250; 255]
  = length [255; 255; 255; 0; 77; 77; 77; 1; 0; 0; 0; 0; 9; 9; 9; 9;
            1; 1; 1; 1; 250; 250; 250; 17] /\
  same_samples
    [255; 255; 255; 255; 0; 0; 0; 255; 9; 9; 9; 255; 1; 2; 3; 4;
     5; 6; 7; 8; 250; 250; 250; 255]
    [255; 255; 255; 0; 77; 77; 77; 1; 0; 0; 0; 0; 9; 9; 9; 9;
     1; 1; 1; 1; 250; 250; 250; 17] /\
  shouldInvert
    [255; 255; 255; 255; 0; 0; 0; 255; 9; 9; 9; 255; 1; 2; 3; 4;
     5; 6; 7; 8; 250; 250; 250; 255]
  = shouldInvert
    [255; 255; 255; 0; 77; 77; 77; 1; 0; 0; 0; 0; 9; 9; 9; 9;
     1; 1; 1; 1; 250; 250; 250; 17].
Proof.
  assert (Hs : same_samples
    [255; 255; 255; 255; 0; 0; 0; 255; 9; 9; 9; 255; 1; 2; 3; 4;
     5; 6; 7; 8; 250; 250; 250; 255]
    [255; 255; 255; 0; 77; 77; 77; 1; 0; 0; 0; 0; 9; 9; 9; 9;
     1; 1; 1; 1; 250; 250; 250; 17]).
  { intros i Hi.
    destruct (decide (i = 0%nat)) as [->|H0]; [repeat split; reflexivity|].
    destruct (decide (i = 20%nat)) as [->|H20]; [repeat split; reflexivity|].
    assert (Hge : (24 <= i)%nat) by dlia.
    repeat split;
      (rewrite !lookup_ge_None_2 by (cbn [length]; lia); reflexivity). }
  split; [reflexivity|]. split; [exact Hs|].
  apply (fun Hlen => proj2 (shouldInvert_frame _ _ Hlen Hs)). reflexivity.
Defined.

(** ** The verdict on particular and related buffers *)

Lemma filter_length_mono {A : Type} (f g : A -> bool) (l : list A) :
  (forall x, x ∈ l -> f x = true -> g x = true) ->
  (length (List.filter f l) <= length (List.filter g l))%nat.
Proof.
  induction l as [|x l IH]; intros H; [done|].
  assert (Hx : x ∈ x :: l) by (apply elem_of_cons; by left).
  assert (IH' : (length (List.filter f l) <= length (List.filter g l))%nat).
  { apply IH. intros y Hy. apply H. apply elem_of_cons. by right. }
  cbn [List.filter]. destruct (f x) eqn:Ef.
  - rewrite (H x Hx Ef). cbn [length]. lia.
  - destruct (g x); cbn [length]; lia.
Qed.

Lemma filter_length_disjoint {A : Type} (f g : A -> bool) (l : list A) :
  (forall x, x ∈ l -> f x = true -> g x = false) ->
  (length (List.filter f l) + length (List.filter g l) <= length l)%nat.
Proof.
  induction l as [|x l IH]; intros H; [done|].
  assert (Hx : x ∈ x :: l) by (apply elem_of_cons; by left).
  assert (IH' : (length (List.filter f l) + length (List.filter g l) <= length l)%nat).
  { apply IH. intros y Hy. apply H. apply elem_of_cons. by right. }
  cbn [List.filter]. destruct (f x) eqn:Ef.
  - rewrite (H x Hx Ef). cbn [length]. lia.
  - destruct (g x); cbn [length]; lia.
Qed.

Lemma uniform_pixels_bright_at (n : nat) (v : Z) (i : nat) :
  (i < 4 * n)%nat -> (i mod 4 = 0)%nat ->
  Rule.bright_at (uniform_pixels n v) i = (200 <? v).
Proof.
  intros Hi Hm. unfold Rule.bright_at.
  rewrite !uniform_pixels_lookup by dlia.
  destruct (Nat.eqb_spec (i mod 4) 3); [dlia|].
  destruct (Nat.eqb_spec ((i + 1) mod 4) 3); [dlia|].
  destruct (Nat.eqb_spec ((i + 2) mod 4) 3); [dlia|].
  rewrite Rule_bright_sum.
  destruct (Z.ltb_spec 600 (v + v + v)), (Z.ltb_spec 200 v); lia.
Qed.

(** X12: a buffer of at least one pixel, all of one grey level [v], is
    judged bright exactly when [v] is greater than 200. *)
Theorem shouldInvert_uniform (n : nat) (v : Z) :
  0 <= v <= 255 -> (0 < n)%nat -> 4 * Z.of_nat n <= U8.max_length ->
  shouldInvert (uniform_pixels n v) = (200 <? v).
Proof.
  intros Hv Hn Hmax.
  rewrite shouldInvert_spec;
    [|by apply uniform_pixels_valid|rewrite uniform_pixels_length; lia].
  unfold Rule.bright_count, Rule.total_count.
  rewrite uniform_pixels_length.
  assert (Hpos : (0 < length (Rule.sample_offsets (4 * n)))%nat).
  { unfold Rule.sample_offsets. rewrite offsets_from_length. dlia. }
  assert (Hat : forall j x, Rule.sample_offsets (4 * n) !! j = Some x ->
            Rule.bright_at (uniform_pixels n v) x = (200 <? v) /\
            (j < length (Rule.sample_offsets (4 * n)))%nat).
  { intros j x Hx. split; [|by eapply lookup_lt_Some].
    apply list_elem_of_lookup_2, sample_offsets_elem in Hx as [Hlt Hm].
    apply uniform_pixels_bright_at; [done|dlia]. }
  destruct (200 <? v) eqn:E.
  - rewrite (filter_prefix_length _ _ (length (Rule.sample_offsets (4 * n)))).
    + rewrite Nat.min_id. apply Z.ltb_lt. lia.
    + intros j x Hx. destruct (Hat j x Hx) as [-> Hj].
      symmetry. by apply Nat.ltb_lt.
  - rewrite (filter_prefix_length _ _ 0%nat).
    + rewrite Nat.min_0_l. apply Z.ltb_ge. lia.
    + intros j x Hx. by destruct (Hat j x Hx) as [-> _].
Qed.

Lemma shouldInvert_uniform_witness :
  0 <= 201 <= 255 /\ (0 < 7)%nat /\ 4 * Z.of_nat 7 <= U8.max_length /\
  shouldInvert (uniform_pixels 7 201) = (200 <? 201).
Proof.
  assert (H1 : 0 <= 201 <= 255) by lia.
  assert (H2 : (0 < 7)%nat) by lia.
  assert (H3 : 4 * Z.of_nat 7 <= U8.max_length) by (unfold U8.max_length; lia).
  split; [exact H1|]. split; [exact H2|]. split; [exact H3|].
  exact (shouldInvert_uniform 7 201 H1 H2 H3).
Defined.

Lemma bright_at_mono (d d' : list Z) (i : nat) :
  Forall2 Z.le d d' -> Rule.bright_at d i = true -> Rule.bright_at d' i = true.
Proof.
  intros Hle. unfold Rule.bright_at.
  destruct (d !! i) as [r|] eqn:Er; [|done].
  destruct (d !! (i + 1)%nat) as [g|] eqn:Eg; [|done].
  destruct (d !! (i + 2)%nat) as [b|] eqn:Eb; [|done].
  destruct (Forall2_lookup_l _ _ _ _ _ Hle Er) as (r' & -> & Hr).
  destruct (Forall2_lookup_l _ _ _ _ _ Hle Eg) as (g' & -> & Hg).
  destruct (Forall2_lookup_l _ _ _ _ _ Hle Eb) as (b' & -> & Hb).
  rewrite !Rule_bright_sum. intros H%Z.ltb_lt. apply Z.ltb_lt. lia.
Qed.

(** X13: brightening never turns a bright verdict into a dim one: if
    every byte of [d'] is at least the byte of [d] at its place and
    [d] is judged bright, so is [d']. *)
Theorem shouldInvert_monotone (d d' : list Z) :
  U8.valid d -> U8.valid d' -> Forall2 Z.le d d' ->
  Z.of_nat (length d) <= U8.max_length ->
  shouldInvert d = true -> shouldInvert d' = true.
Proof.
  intros Hd Hd' Hle Hmax.
  pose proof (Forall2_length _ _ _ Hle) as Hlen.
  rewrite !shouldInvert_spec by (done || lia).
  unfold Rule.bright_count, Rule.total_count. rewrite <- Hlen.
  pose proof (filter_length_mono (Rule.bright_at d) (Rule.bright_at d')
    (Rule.sample_offsets (length d))
    (fun x _ => bright_at_mono d d' x Hle)) as Hmono.
  intros H%Z.ltb_lt. apply Z.ltb_lt. lia.
Qed.

Lemma shouldInvert_monotone_witness :
  shouldInvert [201; 201; 201; 0; 3; 4; 5; 6] = true /\
  shouldInvert [255; 202; 230; 255; 3; 40; 50; 60] = true.
Proof.
  assert (H : shouldInvert [201; 201; 201; 0; 3; 4; 5; 6] = true)
    by (vm_compute; reflexivity).
  split; [exact H|].
  apply (shouldInvert_monotone [201; 201; 201; 0; 3; 4; 5; 6]
           [255; 202; 230; 255; 3; 40; 50; 60]).
  - unfold U8.valid. repeat (constructor; [lia|]). constructor.
  - unfold U8.valid. repeat (constructor; [lia|]). constructor.
  - repeat (constructor; [lia|]). constructor.
  - unfold U8.max_length. cbn [length]. lia.
  - exact H.
Defined.

Lemma bright_at_inverted (d : list Z) (i : nat) :
  U8.valid d -> (i mod 4 = 0)%nat ->
  Rule.bright_at d i = true -> Rule.bright_at (invertPixels d) i = false.
Proof.
  intros Hd Hi. unfold Rule.bright_at.
  destruct (d !! i) as [r|] eqn:Er; [|done].
  destruct (d !! (i + 1)%nat) as [g|] eqn:Eg; [|done].
  destruct (d !! (i + 2)%nat) as [b|] eqn:Eb; [|done].
  rewrite (invertPixels_rgb d i r Hd) by (done || dlia).
  rewrite (invertPixels_rgb d (i + 1) g Hd) by (done || dlia).
  rewrite (invertPixels_rgb d (i + 2) b Hd) by (done || dlia).
  pose proof (valid_lookup d _ _ Hd Er).
  pose proof (valid_lookup d _ _ Hd Eg).
  pose proof (valid_lookup d _ _ Hd Eb).
  rewrite !Rule_bright_sum. intros H'%Z.ltb_lt. apply Z.ltb_ge. lia.
Qed.

(** Inverting moves every bright sample out of the bright ones. *)
Lemma inverted_counts (d : list Z) :
  U8.valid d ->
  Rule.total_count (invertPixels d) = Rule.total_count d /\
  Rule.bright_count (invertPixels d) + Rule.bright_count d <= Rule.total_count d.
Proof.
  intros Hd. unfold Rule.total_count, Rule.bright_count.
  rewrite invertPixels_length. split; [done|].
  pose proof (filter_length_disjoint (Rule.bright_at d)
    (Rule.bright_at (invertPixels d)) (Rule.sample_offsets (length d))) as H.
  assert (Hdis : forall x, x ∈ Rule.sample_offsets (length d) ->
            Rule.bright_at d x = true ->
            Rule.bright_at (invertPixels d) x = false).
  { intros x [_ Hx]%sample_offsets_elem. apply bright_at_inverted; [done|dlia]. }
  specialize (H Hdis). lia.
Qed.

(** X14: the inversion of a buffer judged bright is not judged bright. *)
Theorem inverted_not_bright (d : list Z) :
  U8.valid d -> Z.of_nat (length d) <= U8.max_length ->
  shouldInvert d = true -> shouldInvert (invertPixels d) = false.
Proof.
  intros Hd Hmax.
  rewrite (shouldInvert_spec d) by done.
  rewrite (shouldInvert_spec (invertPixels d))
    by (by apply invertPixels_valid || by rewrite invertPixels_length).
  destruct (inverted_counts d Hd) as [-> Hle].
  pose proof (bright_le_total (invertPixels d)).
  intros H'%Z.ltb_lt. apply Z.ltb_ge. lia.
Qed.

Lemma inverted_not_bright_witness :
  shouldInvert (striped_pixels 5 4) = true /\
  shouldInvert (invertPixels (striped_pixels 5 4)) = false.
Proof.
  assert (H : shouldInvert (striped_pixels 5 4) = true)
    by (vm_compute; reflexivity).
  split; [exact H|].
  apply (inverted_not_bright (striped_pixels 5 4)).
  - apply striped_pixels_valid.
  - vm_compute. discriminate.
  - exact H.
Defined.

(** ** The handler running again on the inverted picture *)

(** X15: when the data URL written by an inversion is loaded and
    [processImage] runs again on the element, now rendering as the
    inverted buffer, the source is not replaced a second time and
    [invertImage] is not called: the inversion of a bright picture is
    not bright. *)
Theorem no_second_inversion (br br' : browser) (img : image) :
  U8.valid (rendered br) ->
  Z.of_nat (length (rendered br)) <= U8.max_length ->
  shouldInvert (rendered br) = true ->
  rendered br' = invertPixels (rendered br) ->
  src (fst (processImage br' (fst (processImage br img))))
    = src (fst (processImage br img)) /\
  Call FInvertImage ∉ snd (processImage br' (fst (processImage br img))).
Proof.
  intros Hd Hmax Hs Hr.
  assert (Hs' : shouldInvert (rendered br') = false).
  { rewrite Hr. revert Hs.
    rewrite (shouldInvert_spec (rendered br)) by done.
    rewrite (shouldInvert_spec (invertPixels (rendered br)))
      by (by apply invertPixels_valid || by rewrite invertPixels_length).
    destruct (inverted_counts (rendered br) Hd) as [-> Hle].
    pose proof (bright_le_total (invertPixels (rendered br))).
    intros H'%Z.ltb_lt. apply Z.ltb_ge. lia. }
  split_paths (processImage_cases br' (fst (processImage br img)));
    cbn [fst snd]; try congruence.
  all: split; [reflexivity | trace_not_in].
Qed.

Lemma no_second_inversion_witness :
  let br := sample_browser true false false (striped_pixels 5 4) in
  let br' := sample_browser true false false (invertPixels (striped_pixels 5 4)) in
  let img := page_image 300 300 "https://example.org/page.png" in
  shouldInvert (rendered br) = true /\
  src (fst (processImage br' (fst (processImage br img))))
    = src (fst (processImage br img)) /\
  Call FInvertImage ∉ snd (processImage br' (fst (processImage br img))).
Proof.
  intros br br' img.
  assert (H : shouldInvert (rendered br) = true) by (vm_compute; reflexivity).
  split; [exact H|].
  apply (no_second_inversion br br' img).
  - apply striped_pixels_valid.
  - vm_compute. discriminate.
  - exact H.
  - reflexivity.
Defined.

(** ** The GIF filter *)

Lemma toLowerCase_substring (s : string) (k m : nat) :
  Str.toLowerCase (substring k m s) = substring k m (Str.toLowerCase s).
Proof.
  revert k m. induction s as [|c s IH]; intros k m.
  - destruct k, m; reflexivity.
  - destruct k as [|k]; destruct m as [|m];
      cbn [substring Str.toLowerCase]; try reflexivity.
    + by rewrite IH.
    + apply IH.
    + apply IH.
Qed.

Lemma substring_split (s : string) (k : nat) :
  (k <= String.length s)%nat ->
  s = String.append (substring 0 k s) (substring k (String.length s - k) s).
Proof.
  revert k. induction s as [|c s IH]; intros k Hk.
  - destruct k; [reflexivity | simpl in Hk; lia].
  - destruct k as [|k].
    + change (substring 0 0 (String c s)) with EmptyString.
      rewrite Nat.sub_0_r, substring_all. reflexivity.
    + cbn [String.length] in Hk.
      cbn [substring String.length Nat.sub].
      change (String c s = String c (String.append (substring 0 k s)
                (substring k (String.length s - k) s))).
      f_equal. apply IH. lia.
Qed.

Lemma endsWith_gif_extension (s : string) :
  Str.endsWith (Str.toLowerCase s) ".gif" = true -> gif_extension s.
Proof.
  unfold Str.endsWith. rewrite toLowerCase_length.
  change (String.length ".gif") with 4%nat.
  destruct (Nat.leb_spec 4 (String.length s)) as [Hl|]; [|done].
  intros He%String.eqb_eq.
  exists (substring 0 (String.length s - 4) s),
         (substring (String.length s - 4) 4 s).
  split.
  - pose proof (substring_split s (String.length s - 4)) as H.
    replace (String.length s - (String.length s - 4))%nat with 4%nat in H by lia.
    apply H. lia.
  - by rewrite toLowerCase_substring.
Qed.

(** X16: an image at least 120 pixels wide and high is skipped as a GIF,
    with the marker set, one log line and no canvas, exactly when its
    source ends in [.gif] in some mix of upper and lower case; what
    follows the extension, as a query string does, keeps the image out
    of the filter. *)
Theorem gif_filter_exact (br : browser) (img : image) :
  120 <= naturalWidth img -> 120 <= naturalHeight img ->
  (processImage br img = (marked img, [Log "Skipping GIF:" (src img)])
   <-> gif_extension (src img)).
Proof.
  intros Hw Hh. split.
  - split_paths (processImage_cases br img); intros Heq;
      first [ by apply endsWith_gif_extension | lia | congruence ].
  - intros Hgif. apply processImage_gif; [done|done|].
    by apply gif_extension_endsWith.
Qed.

Lemma gif_filter_exact_witness :
  let br := sample_browser true false false [] in
  let img := page_image 300 300 "https://example.org/anim.GIF" in
  120 <= naturalWidth img /\ 120 <= naturalHeight img /\
  (processImage br img = (marked img, [Log "Skipping GIF:" (src img)])
   <-> gif_extension (src img)).
Proof.
  intros br img.
  assert (Hw : 120 <= naturalWidth img) by (cbn; lia).
  assert (Hh : 120 <= naturalHeight img) by (cbn; lia).
  split; [exact Hw|]. split; [exact Hh|].
  exact (gif_filter_exact br img Hw Hh).
Defined.

(** ** The fallback style *)

(** X17: [applyCssFallback] overwrites the [filter] and
    [background-color] properties, whatever the page had put there,
    leaves every other style property, the source and the dataset as
    they were, and applied a second time changes nothing more. *)
Theorem applyCssFallback_frame (img : image) :
  let img' := fst (applyCssFallback img) in
  style img' !! "filter" = Some (fallback_filter, "important") /\
  style img' !! "background-color" = Some ("black", EmptyString) /\
  (forall k, k <> "filter" -> k <> "background-color" ->
     style img' !! k = style img !! k) /\
  src img' = src img /\ dataset img' = dataset img /\
  fst (applyCssFallback img') = img'.
Proof.
  cbn zeta. rewrite !applyCssFallback_style.
  unfold fallback_style.
  split; [by rewrite lookup_insert_ne, lookup_insert_eq|].
  split; [by rewrite lookup_insert_eq|].
  split.
  { intros k Hf Hb. by rewrite !lookup_insert_ne. }
  split; [done|]. split; [done|].
  unfold applyCssFallback, style_setProperty.
  cbn [fst dataset naturalWidth naturalHeight src complete onload style].
  f_equal. apply (fallback_style_idempotent (style img)).
Qed.
